(** * Waveline-BG: a shallow embedding of [src/waveline-bg.js]

    The library builds a scalar field from superposed sine waves, plans
    iso-value thresholds over it, hands both to d3-contour and renders the
    returned rings as SVG paths.

    Number model.  Integer-valued quantities (seed, grid sizes, loop
    counters, the density) are [Z]; the one integer that outgrows what a
    Number holds exactly, the accumulator of the PRNG, is rounded as a
    double is ([roundTiesToEven]).  All other numbers are read in exact
    arithmetic: they are real numbers [R], [Math.sin] is [sin], [Math.PI]
    is [PI].  Statements about the field, the thresholds and the stroke
    styles are therefore statements about the exact values of the
    expressions the code evaluates; the doubles the code computes are
    these values rounded at every operation.  Where rounding decides a
    property, the planner is given a second time on binary64 numbers
    ([Module F64]).  [Infinity] and [NaN] have no counterpart among the
    reals; the places where JavaScript would produce them (a division by
    zero, the minimum of an empty array) are marked at the definitions
    concerned.  Bitwise operators follow ECMAScript: operands go through
    [ToInt32] or [ToUint32] first.  Option values are typed as the option
    table of the README types them.  The built-in conversions of numbers to
    text are parameters of the rendering functions. *)

From Stdlib Require Import ZArith Reals Lra Lia String Ascii List Bool.
From Stdlib Require Import Sorted DecimalString.
From Stdlib Require DecimalZ.
From Stdlib Require Import Floats Uint63.
Import ListNotations.

Local Open Scope Z_scope.

(** ** ECMAScript conversions, operators and built-ins *)

Module JS.

Definition two32 : Z := 4294967296.

(** [ToUint32]: the value modulo 2^32. *)
Definition ToUint32 (x : Z) : Z := x mod two32.

(** [ToInt32]: the value modulo 2^32, read as a signed 32-bit integer. *)
Definition ToInt32 (x : Z) : Z :=
  let u := x mod two32 in
  if 2147483648 <=? u then u - two32 else u.

(** [a ^ b] *)
Definition bxor (a b : Z) : Z := Z.lxor (ToInt32 a) (ToInt32 b).

(** [a | b] *)
Definition bor (a b : Z) : Z := Z.lor (ToInt32 a) (ToInt32 b).

(** [a >>> k], for a literal shift count [0 <= k < 32]. *)
Definition ushr (a k : Z) : Z := Z.shiftr (ToUint32 a) k.

(** [Math.imul(a, b)] *)
Definition imul (a b : Z) : Z := ToInt32 (ToInt32 a * ToInt32 b).

(** The Number that an arithmetic operation with the exact integer result
    [x] yields: [x] itself up to 2^53 in magnitude; beyond, the nearest
    integer with a 53-bit significand, a tie going to the even
    significand.  (The overflow to [Infinity] past 2^1024 is not
    modelled.) *)
Definition roundTiesToEven (x : Z) : Z :=
  let a := Z.abs x in
  if a <? 2 ^ 53 then x
  else
    let e := Z.log2 a - 52 in
    let q := Z.shiftr a e in
    let r := a - Z.shiftl q e in
    let half := Z.shiftl 1 (e - 1) in
    let q := if r <? half then q
             else if half <? r then q + 1
             else if Z.even q then q else q + 1 in
    Z.sgn x * Z.shiftl q e.

(** [Math.floor] *)
Definition Math_floor (x : R) : Z := Int_part x.

(** [Math.pow(x, y)].  For a base [x > 0] it is [exp (y * ln x)]; for
    [x = 0] it is 1 at [y = 0] and 0 at [y > 0].  The remaining cases
    ([Infinity] at [x = 0], [y < 0]; integer powers and [NaN] at [x < 0])
    are not modelled: [applyBias] is called with bases in (0, 1) only. *)
Definition Math_pow (x y : R) : R :=
  if Rlt_dec 0 x then Rpower x y
  else if Req_dec_T y 0 then 1%R else 0%R.

(** [Math.min.apply(null, xs)] and [Math.max.apply(null, xs)].  On an empty
    array JavaScript answers [Infinity] and [-Infinity]; the model answers
    0 there. *)
Definition Math_min (xs : list R) : R :=
  match xs with
  | [] => 0%R
  | x :: xs => fold_left Rmin xs x
  end.

Definition Math_max (xs : list R) : R :=
  match xs with
  | [] => 0%R
  | x :: xs => fold_left Rmax xs x
  end.

(** Falsy values, for [v || d]: [undefined] (an absent option), the number
    0 and the empty string. *)
Class Falsy (A : Type) := falsy : A -> bool.

#[export] Instance Falsy_R : Falsy R :=
  fun x => if Req_dec_T x 0 then true else false.

#[export] Instance Falsy_Z : Falsy Z := fun x => x =? 0.

#[export] Instance Falsy_string : Falsy string := fun s => String.eqb s EmptyString.

(** [v || d], [v] an option that may be absent. *)
Definition or_else {A} `{Falsy A} (v : option A) (d : A) : A :=
  match v with
  | Some x => if falsy x then d else x
  | None => d
  end.

(** [v || d], [v] a value. *)
Definition or_value {A} `{Falsy A} (v d : A) : A := if falsy v then d else v.

(** [v !== undefined ? v : d] *)
Definition defined_or {A} (v : option A) (d : A) : A :=
  match v with
  | Some x => x
  | None => d
  end.

(** String conversion of an integer-valued Number below 10^21: its decimal
    digits. *)
Definition Z_toString (z : Z) : string := NilZero.string_of_int (Z.to_int z).

(** [String.prototype.trim], over the ASCII white space and line
    terminators. *)
Definition isWhiteSpace (c : ascii) : bool :=
  match nat_of_ascii c with
  | 9%nat | 10%nat | 11%nat | 12%nat | 13%nat | 32%nat => true
  | _ => false
  end.

Fixpoint trimStart (s : string) : string :=
  match s with
  | EmptyString => EmptyString
  | String c s' => if isWhiteSpace c then trimStart s' else s
  end.

Fixpoint trimEnd (s : string) : string :=
  match s with
  | EmptyString => EmptyString
  | String c s' =>
      match trimEnd s' with
      | EmptyString => if isWhiteSpace c then EmptyString else String c EmptyString
      | r => String c r
      end
  end.

Definition trim (s : string) : string := trimEnd (trimStart s).

(** [for (var k = start; k < stop; k++) body]: the body is run with the
    counter values [start], [start + 1], ... and threads the variables it
    assigns. *)
Fixpoint for_count {S : Type} (n : nat) (k : Z) (body : Z -> S -> S) (s : S) : S :=
  match n with
  | O => s
  | Datatypes.S n => for_count n (k + 1) body (body k s)
  end.

Definition for_lt {S : Type} (start stop : Z) (body : Z -> S -> S) (s : S) : S :=
  for_count (Z.to_nat (stop - start)) start body s.

(** [xs.forEach(function (x, idx) body)] *)
Fixpoint forEach_from {A S : Type} (xs : list A) (idx : nat)
    (body : A -> nat -> S -> S) (s : S) : S :=
  match xs with
  | [] => s
  | x :: xs => forEach_from xs (Datatypes.S idx) body (body x idx s)
  end.

Definition forEach {A S : Type} (xs : list A) (body : A -> nat -> S -> S) (s : S) : S :=
  forEach_from xs 0 body s.

End JS.

Import JS.

Infix "|||" := or_else (at level 50, left associativity).

(** ** PRNG (source lines 24-31) *)

(** [mulberry32(seed)] returns a closure whose only state is the captured
    variable [seed]; the closure is represented by that variable. *)
Record Rng : Type := { seed_var : Z }.

Definition mulberry32 (seed : Z) : Rng := {| seed_var := seed |}.

(** The integer part of one call: the bits [(t ^ t >>> 14) >>> 0] and the
    closure with its variable updated by [seed += 0x6D2B79F5], an addition
    of Numbers: the variable is never wrapped to 32 bits, and once it has
    passed 2^53 the sum is rounded.  (The sum [t + Math.imul(...)] of two
    32-bit integers is exact.) *)
Definition mulberry32_bits (g : Rng) : Z * Rng :=
  let seed := roundTiesToEven (seed_var g + 0x6D2B79F5) in
  let t := seed in
  let t := imul (bxor t (ushr t 15)) (bor t 1) in
  let t := bxor t (t + imul (bxor t (ushr t 7)) (bor t 61)) in
  (ushr (bxor t (ushr t 14)) 0, {| seed_var := seed |}).

(** One call of the closure: the returned number and the updated closure. *)
Definition mulberry32_call (g : Rng) : R * Rng :=
  let '(bits, g) := mulberry32_bits g in
  ((IZR bits / 4294967296)%R, g).

(** The closure after [n] calls. *)
Fixpoint rnd_after (n : nat) (g : Rng) : Rng :=
  match n with
  | O => g
  | S n => rnd_after n (snd (mulberry32_call g))
  end.

(** The number returned by the call that follows [n] earlier calls. *)
Definition rnd_nth (g : Rng) (n : nat) : R := fst (mulberry32_call (rnd_after n g)).


Local Open Scope R_scope.

(** ** Scalar field (source lines 49-71) *)

(** [generateField] with the closure [rnd] as it stands on return. *)
Definition generateField_run (gridW gridH : Z) (freq amplitude : R) (seed : Z)
    : list R * Rng :=
  let values := [] in
  let rnd := mulberry32 (ushr seed 0) in
  let '(r, rnd) := mulberry32_call rnd in
  let phase1 := r * PI * 2 in
  let '(r, rnd) := mulberry32_call rnd in
  let phase2 := r * PI * 2 in
  let '(r, rnd) := mulberry32_call rnd in
  let phase3 := r * PI * 2 in
  let f := freq / 10 in
  let values :=
    for_lt 0 gridH (fun j values =>
      for_lt 0 gridW (fun i values =>
        let nx := IZR i / IZR gridW - 0.5 in
        let ny := IZR j / IZR gridH - 0.5 in
        let v1 := sin (nx * PI * 2 * f + phase1) + sin (ny * PI * 2 * f * 0.9 + phase2) in
        let v2 := 0.6 * sin ((nx + ny) * PI * 2 * f * 0.7 + phase3) in
        let v3 := 0.4 * sin ((nx - ny) * PI * 2 * f * 0.5 - phase2) in
        values ++ [(v1 + v2 + v3) * amplitude]) values) values in
  (values, rnd).

Definition generateField (gridW gridH : Z) (freq amplitude : R) (seed : Z) : list R :=
  fst (generateField_run gridW gridH freq amplitude seed).

(** ** Bias (source lines 115-119) *)

Definition applyBias (u bias : R) : R :=
  if Req_dec_T bias 0 then u
  else if Rgt_dec bias 0 then Math_pow u (1 + bias)
  else 1 - Math_pow (1 - u) (1 - bias).

(** ** Options and the objects exchanged with d3-contour *)

Module Options.

(** The [options] object; [None] is an absent ([undefined]) property. *)
Record t : Type := {
  width : option R;
  height : option R;
  gridWidth : option Z;
  gridHeight : option Z;
  density : option Z;
  freq : option R;
  amplitude : option R;
  strokeMin : option R;
  strokeMax : option R;
  opacityMin : option R;
  opacityMax : option R;
  bias : option R;
  seed : option Z;
  strokeColor : option string;
  backgroundColor : option string
}.

(** [{}], also what [options || {}] makes of a missing argument. *)
Definition empty : t :=
  {| width := None; height := None; gridWidth := None; gridHeight := None;
     density := None; freq := None; amplitude := None;
     strokeMin := None; strokeMax := None; opacityMin := None; opacityMax := None;
     bias := None; seed := None; strokeColor := None; backgroundColor := None |}.

End Options.

(** A d3 contour: a GeoJSON MultiPolygon, polygons of rings of points. *)
Record Contour : Type := { coordinates : list (list (list (R * R))) }.

(** How a call ends: with a returned value or with a thrown error, given by
    its message. *)
Inductive Completion (A : Type) : Type :=
| Return (value : A)
| Throw (message : string).

Arguments Return {A} value.
Arguments Throw {A} message.

(** The global [d3] at the time of the call:
    - not declared or [undefined];
    - [null], where reading [d3.contours] raises a TypeError (with the
      engine's message);
    - an object whose [contours] is absent or falsy;
    - an object whose [contours] is truthy but not a function, where the
      call [d3.contours()] raises a TypeError;
    - d3-contour, whose generator is configured by [size], [smooth] and
      [thresholds] and applied to the field: one that returns the contours
      for every input ([d3_contour]), or one that may throw
      ([d3_generator]), as d3-contour does on an invalid size. *)
Inductive D3 : Type :=
| d3_undefined
| d3_null (TypeError : string)
| d3_no_contours
| d3_not_callable (TypeError : string)
| d3_contour (contours : Z * Z -> bool -> list R -> list R -> list Contour)
| d3_generator
    (contours : Z * Z -> bool -> list R -> list R -> Completion (list Contour)).

(** The local variables of [generateWavelineSvg] after the defaulting of
    lines 133-157. *)
Record Settings : Type := {
  s_width : R;
  s_height : R;
  s_gridWidth : Z;
  s_gridHeight : Z;
  s_density : Z;
  s_freq : R;
  s_amplitude : R;
  s_strokeMin : R;
  s_strokeMax : R;
  s_opacityMin : R;
  s_opacityMax : R;
  s_bias : R;
  s_seed : Z;
  s_strokeColor : string;
  s_bgColor : string
}.

(** Lines 133-157.  [Math_random] is the number [Math.random()] returns when
    it is called. *)
Definition defaults (Math_random : R) (options : Options.t) : Settings :=
  {| s_width := Options.width options ||| 100;
     s_height := Options.height options ||| 56.25;
     s_gridWidth := Options.gridWidth options ||| 160%Z;
     s_gridHeight := Options.gridHeight options ||| 90%Z;
     s_density := Options.density options ||| 10%Z;
     s_freq := Options.freq options ||| 5;
     s_amplitude := Options.amplitude options ||| 1.0;
     s_strokeMin := defined_or (Options.strokeMin options) 0.16;
     s_strokeMax := defined_or (Options.strokeMax options) 0.26;
     s_opacityMin := defined_or (Options.opacityMin options) 0.5;
     s_opacityMax := defined_or (Options.opacityMax options) 1.0;
     s_bias := Options.bias options ||| 0;
     s_seed := defined_or (Options.seed options) (Math_floor (Math_random * 1e9));
     s_strokeColor := Options.strokeColor options ||| "#888888"%string;
     s_bgColor := Options.backgroundColor options ||| "transparent"%string |}.

(** Lines 177-185: the range of the field and the contour thresholds. *)
Definition thresholds (field : list R) (density : Z) (bias : R) : list R :=
  let min := Math_min field in
  let max := Math_max field in
  let levels := [] in
  for_lt 1 (density + 1) (fun k levels =>
    let u := IZR k / IZR (density + 1) in
    levels ++ [min + applyBias u bias * (max - min)]) levels.

(** Lines 176-185: the field and the thresholds of a run. *)
Definition terrain (s : Settings) : list R * list R :=
  let field := generateField (s_gridWidth s) (s_gridHeight s) (s_freq s)
                 (s_amplitude s) (s_seed s) in
  (field, thresholds field (s_density s) (s_bias s)).

(** Line 196 *)
Definition clipId (seed : Z) : string :=
  ("wlbg-" ++ Z_toString (Z.rem seed 999983))%string.

(** Lines 212, 214 and 215: position, stroke width and stroke opacity of the
    contour at [idx] among [length] contours. *)
Definition contour_t (length idx : nat) : R :=
  INR idx / IZR (or_value (Z.of_nat length - 1)%Z 1%Z).

Definition contour_sw (strokeMin strokeMax t : R) : R :=
  strokeMin + (strokeMax - strokeMin) * t.

Definition contour_op (opacityMin opacityMax t : R) : R :=
  opacityMin + (opacityMax - opacityMin) * (1 - t).

(** ** The planner on doubles

    Lines 115-119 and 177-185 once more, on binary64 numbers with the
    IEEE 754 operations that JavaScript evaluates them with.  [Math.pow]
    is the engine's and a parameter here. *)
Module F64.

Local Open Scope float_scope.

(** The Number of an integer literal or loop counter (exact up to 2^53). *)
Definition Number (z : Z) : float :=
  if (z <? 0)%Z then - PrimFloat.of_uint63 (Uint63.of_Z (- z))
  else PrimFloat.of_uint63 (Uint63.of_Z z).

(** [x < y] *)
Definition lt (x y : float) : Prop := PrimFloat.ltb x y = true.

(** What [Math.min] and [Math.max] keep of two Numbers: [NaN] if either is
    [NaN], and [-0] counts as below [+0]. *)
Definition min2 (x y : float) : float :=
  if orb (is_nan x) (is_nan y) then nan
  else if PrimFloat.ltb x y then x
  else if PrimFloat.ltb y x then y
  else if get_sign x then x else y.

Definition max2 (x y : float) : float :=
  if orb (is_nan x) (is_nan y) then nan
  else if PrimFloat.ltb x y then y
  else if PrimFloat.ltb y x then x
  else if get_sign x then y else x.

(** [Math.min.apply(null, xs)] and [Math.max.apply(null, xs)] *)
Definition Math_min (xs : list float) : float := fold_left min2 xs infinity.

Definition Math_max (xs : list float) : float := fold_left max2 xs neg_infinity.

Section Planner.

Variable Math_pow : float -> float -> float.

(** Lines 115-119 *)
Definition applyBias (u bias : float) : float :=
  if PrimFloat.eqb bias 0 then u
  else if PrimFloat.ltb 0 bias then Math_pow u (1 + bias)
  else 1 - Math_pow (1 - u) (1 - bias).

(** Lines 177-185 *)
Definition thresholds (field : list float) (density : Z) (bias : float) : list float :=
  let min := Math_min field in
  let max := Math_max field in
  let levels := [] in
  for_lt 1 (density + 1) (fun k levels =>
    let u := Number k / (Number density + 1) in
    levels ++ [min + applyBias u bias * (max - min)]) levels.

End Planner.

End F64.

(** The double quote of the markup. *)
Definition dq : string := String "034"%char EmptyString.

Section Rendering.

(** The built-in conversions of numbers to text: [x.toFixed(digits)] and the
    string conversion of [s + x]. *)
Variable toFixed : R -> nat -> string.
Variable Number_toString : R -> string.

Local Open Scope string_scope.

(** ** Contour to SVG path (source lines 89-102) *)

Definition contourToPath (contour : Contour) (sx sy ox oy : R) : string :=
  let d := "" in
  let d :=
    forEach (coordinates contour) (fun poly _ d =>
      forEach poly (fun ring _ d =>
        let d :=
          forEach ring (fun pt idx d =>
            let x := (fst pt * sx - ox)%R in
            let y := (snd pt * sy - oy)%R in
            d ++ ((if Nat.eqb idx 0 then "M " else "L ")
                  ++ toFixed x 3 ++ " " ++ toFixed y 3 ++ " ")) d in
        d ++ "Z ") d) d in
  trim d.

(** Lines 211-223: one [<path>] per contour, appended to [svg]. *)
Definition renderContours (s : Settings) (sx sy ox oy : R)
    (contourData : list Contour) (svg : string) : string :=
  forEach contourData (fun c idx svg =>
    let t := contour_t (List.length contourData) idx in
    let d := contourToPath c sx sy ox oy in
    let sw := contour_sw (s_strokeMin s) (s_strokeMax s) t in
    let op := contour_op (s_opacityMin s) (s_opacityMax s) t in
    svg ++ ("<path d=" ++ dq ++ d ++ dq
            ++ " fill=" ++ dq ++ "none" ++ dq
            ++ " stroke=" ++ dq ++ s_strokeColor s ++ dq
            ++ " stroke-width=" ++ dq ++ Number_toString sw ++ dq
            ++ " stroke-opacity=" ++ dq ++ Number_toString op ++ dq
            ++ " stroke-linejoin=" ++ dq ++ "round" ++ dq
            ++ " stroke-linecap=" ++ dq ++ "round" ++ dq ++ "/>")) svg.

(** ** SVG generation (source lines 132-227) *)

(** Lines 193-227: the document around the paths of the contours. *)
Definition composeSvg (s : Settings) (sx sy ox oy : R) (contourData : list Contour)
    : string :=
  let width := s_width s in
  let height := s_height s in
  let clipId := clipId (s_seed s) in
  let svg :=
    "<svg xmlns=" ++ dq ++ "http://www.w3.org/2000/svg" ++ dq
    ++ " viewBox=" ++ dq ++ "0 0 " ++ Number_toString width ++ " "
    ++ Number_toString height ++ dq
    ++ " preserveAspectRatio=" ++ dq ++ "xMidYMid slice" ++ dq ++ ">"
    ++ "<defs><clipPath id=" ++ dq ++ clipId ++ dq ++ ">"
    ++ "<rect x=" ++ dq ++ "0" ++ dq ++ " y=" ++ dq ++ "0" ++ dq
    ++ " width=" ++ dq ++ Number_toString width ++ dq
    ++ " height=" ++ dq ++ Number_toString height ++ dq ++ "/>"
    ++ "</clipPath></defs>"
    ++ "<rect width=" ++ dq ++ Number_toString width ++ dq
    ++ " height=" ++ dq ++ Number_toString height ++ dq
    ++ " fill=" ++ dq ++ s_bgColor s ++ dq ++ "/>"
    ++ "<g clip-path=" ++ dq ++ "url(#" ++ clipId ++ ")" ++ dq ++ ">" in
  let svg := renderContours s sx sy ox oy contourData svg in
  svg ++ "</g></svg>".

Definition generateWavelineSvg (d3 : D3) (Math_random : R) (options : Options.t)
    : Completion string :=
  let s := defaults Math_random options in
  let width := s_width s in
  let height := s_height s in
  let gridWidth := s_gridWidth s in
  let gridHeight := s_gridHeight s in
  (* lines 159-161: [typeof d3 === 'undefined' || !d3.contours] *)
  match d3 with
  | d3_undefined | d3_no_contours =>
      Throw "d3-contour is required. Load it before waveline-bg.js."
  | d3_null TypeError => Throw TypeError
  | d3_not_callable TypeError =>
      (* the field and the levels are computed, then [d3.contours()] fails *)
      Throw TypeError
  | d3_contour contours =>
      let bleed := 0.10%R in
      let fullW := (width * (1 + bleed * 2))%R in
      let fullH := (height * (1 + bleed * 2))%R in
      let ox := (width * bleed)%R in
      let oy := (height * bleed)%R in
      let sx := (fullW / IZR (gridWidth - 1))%R in
      let sy := (fullH / IZR (gridHeight - 1))%R in
      let '(field, levels) := terrain s in
      let contourData := contours (gridWidth, gridHeight) true levels field in
      Return (composeSvg s sx sy ox oy contourData)
  | d3_generator contours =>
      let bleed := 0.10%R in
      let fullW := (width * (1 + bleed * 2))%R in
      let fullH := (height * (1 + bleed * 2))%R in
      let ox := (width * bleed)%R in
      let oy := (height * bleed)%R in
      let sx := (fullW / IZR (gridWidth - 1))%R in
      let sy := (fullH / IZR (gridHeight - 1))%R in
      let '(field, levels) := terrain s in
      match contours (gridWidth, gridHeight) true levels field with
      | Throw message => Throw message
      | Return contourData => Return (composeSvg s sx sy ox oy contourData)
      end
  end.

(** ** The calls of a run

    [generateWavelineSvg] once more, statement by statement, with a log of
    the calls it makes to functions outside its own body ([Math.random],
    the library's functions, the built-ins on the field, d3-contour) in
    the order in which it makes them.  A call is logged when it is made;
    the calls inside the callees are not listed. *)
Inductive Call : Type :=
| call_Math_random
| call_generateField
| call_Math_min
| call_Math_max
| call_applyBias
| call_d3_contours
| call_contourToPath.

Definition generateWavelineSvg_calls (d3 : D3) (Math_random : R) (options : Options.t)
    : list Call * Completion string :=
  let calls := [] in
  (* lines 136-157; line 155 calls [Math.random] when no seed is given *)
  let calls :=
    match Options.seed options with
    | Some _ => calls
    | None => (calls ++ [call_Math_random])%list
    end in
  let s := defaults Math_random options in
  let width := s_width s in
  let height := s_height s in
  let gridWidth := s_gridWidth s in
  let gridHeight := s_gridHeight s in
  (* lines 159-161 *)
  match d3 with
  | d3_undefined | d3_no_contours =>
      (calls, Throw "d3-contour is required. Load it before waveline-bg.js.")
  | d3_null TypeError => (calls, Throw TypeError)
  | d3_not_callable _ | d3_contour _ | d3_generator _ =>
      (* lines 167-173 *)
      let bleed := 0.10%R in
      let fullW := (width * (1 + bleed * 2))%R in
      let fullH := (height * (1 + bleed * 2))%R in
      let ox := (width * bleed)%R in
      let oy := (height * bleed)%R in
      let sx := (fullW / IZR (gridWidth - 1))%R in
      let sy := (fullH / IZR (gridHeight - 1))%R in
      (* lines 176-185 *)
      let calls := (calls ++ [call_generateField])%list in
      let calls := (calls ++ [call_Math_min])%list in
      let calls := (calls ++ [call_Math_max])%list in
      let calls :=
        for_lt 1 (s_density s + 1) (fun k calls => (calls ++ [call_applyBias])%list) calls in
      let '(field, levels) := terrain s in
      (* lines 188-191 *)
      let contourData :=
        match d3 with
        | d3_contour contours =>
            ((calls ++ [call_d3_contours])%list,
             Return (contours (gridWidth, gridHeight) true levels field))
        | d3_generator contours =>
            ((calls ++ [call_d3_contours])%list,
             contours (gridWidth, gridHeight) true levels field)
        | d3_not_callable TypeError => (calls, Throw TypeError)
        | d3_undefined | d3_null _ | d3_no_contours =>
            (* excluded by the check of lines 159-161 *)
            (calls, Throw EmptyString)
        end in
      match contourData with
      | (calls, Throw message) => (calls, Throw message)
      | (calls, Return contourData) =>
          (* lines 196-226 *)
          let calls :=
            forEach contourData (fun c idx calls => (calls ++ [call_contourToPath])%list) calls in
          (calls, Return (composeSvg s sx sy ox oy contourData))
      end
  end.

End Rendering.

(** * Specification-side definitions

    The statements of the specification that the theorems below compare
    the code with. *)

(** Mulberry32 as the specification words it: a 32-bit accumulator, every
    operation on unsigned 32-bit words with wrap-around. *)
Module Mulberry32.

Definition wrap (x : Z) : Z := x mod 2 ^ 32.

Definition increment : Z := 0x6D2B79F5.

Definition advance (a : Z) : Z := wrap (a + increment).

Definition mix (a : Z) : Z :=
  let t := wrap (Z.lxor a (Z.shiftr a 15) * Z.lor a 1) in
  let t := Z.lxor t (wrap (t + wrap (Z.lxor t (Z.shiftr t 7) * Z.lor t 61))) in
  Z.lxor t (Z.shiftr t 14).

(** The accumulator after [n] draws. *)
Fixpoint state (seed : Z) (n : nat) : Z :=
  match n with
  | O => seed
  | S n => advance (state seed n)
  end.

(** The 32-bit word produced by the draw that follows [n] earlier draws. *)
Definition output (seed : Z) (n : nat) : Z := mix (state seed (S n)).

End Mulberry32.

(** The counter values of a loop: [n] consecutive integers from [k]. *)
Fixpoint zrange (k : Z) (n : nat) : list Z :=
  match n with
  | O => []
  | S n => (k :: zrange (k + 1) n)%list
  end.

Module Spec.

(** The phase drawn by the call that follows [n] earlier calls. *)
Definition phase (g : Rng) (n : nat) : R := rnd_nth g n * (2 * PI).

(** The value of cell (i, j). *)
Definition cell (gridWidth gridHeight : Z) (freq amplitude phase1 phase2 phase3 : R)
    (i j : Z) : R :=
  let f := freq / 10 in
  let nx := IZR i / IZR gridWidth - 0.5 in
  let ny := IZR j / IZR gridHeight - 0.5 in
  amplitude *
  (sin (2 * PI * f * nx + phase1)
   + sin (2 * PI * (0.9 * f) * ny + phase2)
   + 0.6 * sin (2 * PI * (0.7 * f) * (nx + ny) + phase3)
   + 0.4 * sin (2 * PI * (0.5 * f) * (nx - ny) - phase2)).

(** The bias curve: the identity at bias 0, [u ^ (1 + bias)] above,
    [1 - (1 - u) ^ (1 - bias)] below, with the real power [Rpower]. *)
Definition biasCurve (bias u : R) : R :=
  match total_order_T bias 0 with
  | inleft (left _) => 1 - Rpower (1 - u) (1 - bias)
  | inleft (right _) => u
  | inright _ => Rpower u (1 + bias)
  end.

(** Path operations. *)
Inductive PathOp : Type :=
| MoveTo (x y : R)
| LineTo (x y : R)
| ClosePath.

Definition isClose (op : PathOp) : bool :=
  match op with
  | ClosePath => true
  | _ => false
  end.

(** The operations of one ring: a move to its first point, a line to every
    later point, one close; every point (x, y) is mapped to
    (x * scaleX - offsetX, y * scaleY - offsetY). *)
Definition ringOps (scaleX scaleY offsetX offsetY : R) (ring : list (R * R))
    : list PathOp :=
  match ring with
  | [] => [ClosePath]
  | p :: ps =>
      MoveTo (fst p * scaleX - offsetX) (snd p * scaleY - offsetY)
      :: map (fun q => LineTo (fst q * scaleX - offsetX) (snd q * scaleY - offsetY)) ps
      ++ [ClosePath]
  end.

Definition contourOps (scaleX scaleY offsetX offsetY : R) (contour : Contour)
    : list PathOp :=
  flat_map (flat_map (ringOps scaleX scaleY offsetX offsetY)) (coordinates contour).

(** Position, stroke width and stroke opacity of the contour at [idx] among
    [count]: the width grows from [strokeMin], the opacity falls from
    [opacityMax]. *)
Definition position (count idx : nat) : R :=
  if Nat.eqb count 1 then 0 else INR idx / (INR count - 1).

Definition widthAt (strokeMin strokeMax t : R) : R :=
  strokeMin + (strokeMax - strokeMin) * t.

Definition opacityAt (opacityMin opacityMax t : R) : R :=
  opacityMax - (opacityMax - opacityMin) * t.

(** An option that is absent or holds the zero of its type. *)
Definition absent_or {A} (v : option A) (zero : A) : Prop :=
  v = None \/ v = Some zero.

Section Text.

Variable toFixed : R -> nat -> string.
Variable Number_toString : R -> string.

Local Open Scope string_scope.

(** The text of an operation: its letter and the coordinates with 3 digits
    after the decimal point, each item followed by one space. *)
Definition opText (op : PathOp) : string :=
  match op with
  | MoveTo x y => "M " ++ toFixed x 3 ++ " " ++ toFixed y 3 ++ " "
  | LineTo x y => "L " ++ toFixed x 3 ++ " " ++ toFixed y 3 ++ " "
  | ClosePath => "Z "
  end.

Definition pathText (ops : list PathOp) : string := String.concat "" (map opText ops).

(** The [<path>] element of a contour with path data [d]. *)
Definition pathElement (d strokeColor : string) (sw op : R) : string :=
  "<path d=" ++ dq ++ d ++ dq
  ++ " fill=" ++ dq ++ "none" ++ dq
  ++ " stroke=" ++ dq ++ strokeColor ++ dq
  ++ " stroke-width=" ++ dq ++ Number_toString sw ++ dq
  ++ " stroke-opacity=" ++ dq ++ Number_toString op ++ dq
  ++ " stroke-linejoin=" ++ dq ++ "round" ++ dq
  ++ " stroke-linecap=" ++ dq ++ "round" ++ dq ++ "/>".

End Text.

(** The default of [strokeColor] in the option table of the README
    (line 155). *)
Definition README_strokeColor : string := "#d4d4d4".

(** Failing fast as the specification words it: the descriptive error, and
    nothing called before it. *)
Definition failsFast (run : list Call * Completion string) : Prop :=
  snd run = Throw "d3-contour is required. Load it before waveline-bg.js."
  /\ fst run = [].

End Spec.

(** An options object that sets the seed only. *)
Definition seedOnly (seed : Z) : Options.t :=
  {| Options.width := None; Options.height := None;
     Options.gridWidth := None; Options.gridHeight := None;
     Options.density := None; Options.freq := None; Options.amplitude := None;
     Options.strokeMin := None; Options.strokeMax := None;
     Options.opacityMin := None; Options.opacityMax := None;
     Options.bias := None; Options.seed := Some seed;
     Options.strokeColor := None; Options.backgroundColor := None |}.

(** Shapes of operation lists: no line before a move, and a close at the
    end. *)
Definition opensRing (ops : list Spec.PathOp) : Prop :=
  match ops with
  | Spec.LineTo _ _ :: _ => False
  | _ => True
  end.

Definition closesRing (ops : list Spec.PathOp) : Prop :=
  ops = [] \/ exists ops', ops = (ops' ++ [Spec.ClosePath])%list.

(** Two option objects with the same seed and terrain options and
    different stroke settings. *)
Definition optionsA : Options.t :=
  {| Options.width := None; Options.height := None;
     Options.gridWidth := Some 8%Z; Options.gridHeight := Some 4%Z;
     Options.density := Some 3%Z; Options.freq := Some 5; Options.amplitude := None;
     Options.strokeMin := Some 0.1; Options.strokeMax := Some 0.2;
     Options.opacityMin := Some 0; Options.opacityMax := None;
     Options.bias := None; Options.seed := Some 12345%Z;
     Options.strokeColor := Some "#ff0000"%string;
     Options.backgroundColor := Some "#ffffff"%string |}.

Definition optionsB : Options.t :=
  {| Options.width := None; Options.height := None;
     Options.gridWidth := Some 8%Z; Options.gridHeight := Some 4%Z;
     Options.density := Some 3%Z; Options.freq := Some 5; Options.amplitude := None;
     Options.strokeMin := None; Options.strokeMax := Some 1;
     Options.opacityMin := None; Options.opacityMax := Some 0.75;
     Options.bias := None; Options.seed := Some 12345%Z;
     Options.strokeColor := None;
     Options.backgroundColor := None |}.

(** An options object with explicit zeros. *)
Definition optionsZero : Options.t :=
  {| Options.width := None; Options.height := None;
     Options.gridWidth := None; Options.gridHeight := None;
     Options.density := Some 0%Z; Options.freq := None; Options.amplitude := Some 0;
     Options.strokeMin := Some 0; Options.strokeMax := None;
     Options.opacityMin := None; Options.opacityMax := None;
     Options.bias := None; Options.seed := Some 0%Z;
     Options.strokeColor := Some EmptyString;
     Options.backgroundColor := None |}.

(** * The rest of the library: geometry, attachment to the page

    Lines 167-173 and 198-206 of [generateWavelineSvg] as functions of the
    settings, [applyWavelineBackground] (lines 252-289) and, from the demo
    page, [removeInlineWrapper]. *)

(** Lines 167-173: scale and offset (sx, sy, ox, oy) of the bleed. *)
Definition bleedMapping (s : Settings) : R * R * R * R :=
  let width := s_width s in
  let height := s_height s in
  let gridWidth := s_gridWidth s in
  let gridHeight := s_gridHeight s in
  let bleed := 0.10 in
  let fullW := width * (1 + bleed * 2) in
  let fullH := height * (1 + bleed * 2) in
  let ox := width * bleed in
  let oy := height * bleed in
  let sx := fullW / IZR (gridWidth - 1) in
  let sy := fullH / IZR (gridHeight - 1) in
  (sx, sy, ox, oy).

(** The page as the library touches it. *)
Module DOM.

(** A [style] object as the code acts on it: the assignments made to its
    properties, as written, the newest first.  What the object holds after
    an assignment (the browser normalises the value and expands a
    shorthand into its longhands) is the browser's matter and not
    modelled; neither is any reading of a property. *)
Definition Style : Type := list (string * string).

(** [style.name = value] *)
Definition setProperty (st : Style) (name value : string) : Style :=
  (name, value) :: st.

Inductive Node : Type :=
| Elem (localName : string) (style : Style) (childNodes : list Node)
| Text (data : string).

(** An element, the argument of [applyWavelineBackground]. *)
Record HTMLElement : Type := {
  localName : string;
  style : Style;
  childNodes : list Node
}.

Definition node (e : HTMLElement) : Node :=
  Elem (localName e) (style e) (childNodes e).

(** [document.createElement(name)] *)
Definition createElement (name : string) : HTMLElement :=
  {| localName := name; style := []; childNodes := [] |}.

(** [e.style.name = value] *)
Definition setStyle (e : HTMLElement) (name value : string) : HTMLElement :=
  {| localName := localName e;
     style := setProperty (style e) name value;
     childNodes := childNodes e |}.

Definition setNodeStyle (n : Node) (name value : string) : Node :=
  match n with
  | Elem l st ch => Elem l (setProperty st name value) ch
  | Text d => Text d
  end.

(** [e.insertBefore(n, e.firstChild)] *)
Definition insertFirst (e : HTMLElement) (n : Node) : HTMLElement :=
  {| localName := localName e; style := style e; childNodes := n :: childNodes e |}.

(** The first node, in document order, that satisfies [p] among the nodes
    of a list and their descendants: [updateFirst] replaces it by its image
    under [f], [removeFirst] detaches it; [None] when no node matches. *)
Fixpoint updateFirstIn (p : Node -> bool) (f : Node -> Node) (n : Node) : option Node :=
  if p n then Some (f n)
  else
    match n with
    | Elem l st ch =>
        let fix inList (ns : list Node) : option (list Node) :=
          match ns with
          | [] => None
          | m :: ns =>
              match updateFirstIn p f m with
              | Some m' => Some (m' :: ns)
              | None => option_map (cons m) (inList ns)
              end
          end in
        option_map (Elem l st) (inList ch)
    | Text _ => None
    end.

Fixpoint updateFirst (p : Node -> bool) (f : Node -> Node) (ns : list Node)
    : option (list Node) :=
  match ns with
  | [] => None
  | m :: ns =>
      match updateFirstIn p f m with
      | Some m' => Some (m' :: ns)
      | None => option_map (cons m) (updateFirst p f ns)
      end
  end.

Fixpoint removeFirstIn (p : Node -> bool) (n : Node) : option Node :=
  match n with
  | Elem l st ch =>
      let fix inList (ns : list Node) : option (list Node) :=
        match ns with
        | [] => None
        | m :: ns =>
            if p m then Some ns
            else
              match removeFirstIn p m with
              | Some m' => Some (m' :: ns)
              | None => option_map (cons m) (inList ns)
              end
        end in
      option_map (Elem l st) (inList ch)
  | Text _ => None
  end.

Fixpoint removeFirst (p : Node -> bool) (ns : list Node) : option (list Node) :=
  match ns with
  | [] => None
  | m :: ns =>
      if p m then Some ns
      else
        match removeFirstIn p m with
        | Some m' => Some (m' :: ns)
        | None => option_map (cons m) (removeFirst p ns)
        end
  end.

(** The selector [svg]. *)
Definition isSvg (n : Node) : bool :=
  match n with
  | Elem l _ _ => String.eqb l "svg"
  | Text _ => false
  end.

(** [s.indexOf(sub) >= 0] *)
Definition includes (s sub : string) : bool :=
  match String.index 0 sub s with
  | Some _ => true
  | None => false
  end.

End DOM.

Import DOM.

Section Attachment.

(** What the browser provides: the number conversions of the rendering,
    [encodeURIComponent], the HTML parser behind [innerHTML], the position
    that [getComputedStyle] reports for an element, the message of the
    TypeError raised on a [null] receiver, and the text of a [style]
    attribute. *)
Variable toFixed : R -> nat -> string.
Variable Number_toString : R -> string.
Variable encodeURIComponent : string -> string.
Variable parseHTML : string -> list Node.
Variable computedPosition : HTMLElement -> string.
Variable TypeError : string.
Variable cssText : Style -> string.

Local Open Scope string_scope.

(** Lines 267-272: the wrapper before its markup is set. *)
Definition newWrapper : HTMLElement :=
  let wrapper := createElement "div" in
  let wrapper := setStyle wrapper "position" "absolute" in
  let wrapper := setStyle wrapper "inset" "0" in
  let wrapper := setStyle wrapper "zIndex" "-1" in
  let wrapper := setStyle wrapper "pointerEvents" "none" in
  setStyle wrapper "overflow" "hidden".

(** Lines 278-280: the styles given to the [svg] element. *)
Definition fillWrapper (svgEl : Node) : Node :=
  let svgEl := setNodeStyle svgEl "width" "100%" in
  let svgEl := setNodeStyle svgEl "height" "100%" in
  setNodeStyle svgEl "display" "block".

(** ** Apply (source lines 252-289): the element after the call and how the
    call ends. *)
Definition applyWavelineBackground (d3 : D3) (Math_random : R)
    (element : HTMLElement) (options : Options.t) (mode : option string)
    : HTMLElement * Completion unit :=
  let mode := mode ||| "dataUrl" in
  match generateWavelineSvg toFixed Number_toString d3 Math_random options with
  | Throw message => (element, Throw message)
  | Return svgString =>
      if String.eqb mode "dataUrl" then
        let encoded := encodeURIComponent svgString in
        let element :=
          setStyle element "backgroundImage"
            ("url(" ++ dq ++ "data:image/svg+xml;charset=UTF-8," ++ encoded ++ dq ++ ")") in
        let element := setStyle element "backgroundSize" "cover" in
        let element := setStyle element "backgroundPosition" "center" in
        let element := setStyle element "backgroundRepeat" "no-repeat" in
        (element, Return tt)
      else
        let wrapper := newWrapper in
        match updateFirst isSvg fillWrapper (parseHTML svgString) with
        | None => (element, Throw TypeError)
        | Some content =>
            let wrapper :=
              {| localName := localName wrapper; style := style wrapper;
                 childNodes := content |} in
            let pos := computedPosition element in
            let element :=
              if String.eqb pos "static" || String.eqb pos ""
              then setStyle element "position" "relative"
              else element in
            (insertFirst element (node wrapper), Return tt)
        end
  end.

(** The selector [div[style*="position: absolute"]] of the demo page. *)
Definition isInlineWrapper (n : Node) : bool :=
  match n with
  | Elem l st _ => String.eqb l "div" && includes (cssText st) "position: absolute"
  | Text _ => false
  end.

(** [removeInlineWrapper] of the demo page (lines 347-350). *)
Definition removeInlineWrapper (el : HTMLElement) : HTMLElement :=
  match removeFirst isInlineWrapper (childNodes el) with
  | Some children =>
      {| localName := localName el; style := style el; childNodes := children |}
  | None => el
  end.

End Attachment.

(** The image of a grid point in the document: lines 94-95 of
    [contourToPath] with the scale and offset of [bleedMapping]. *)
Definition mapPoint (s : Settings) (pt : R * R) : R * R :=
  let '(sx, sy, ox, oy) := bleedMapping s in
  (fst pt * sx - ox, snd pt * sy - oy).

(** The wrapper of lines 267-274 around [content]. *)
Definition wrapperNode (content : list Node) : Node :=
  Elem "div" (style newWrapper) content.

(** The options with their seed replaced. *)
Definition withSeed (options : Options.t) (seed : Z) : Options.t :=
  {| Options.width := Options.width options;
     Options.height := Options.height options;
     Options.gridWidth := Options.gridWidth options;
     Options.gridHeight := Options.gridHeight options;
     Options.density := Options.density options;
     Options.freq := Options.freq options;
     Options.amplitude := Options.amplitude options;
     Options.strokeMin := Options.strokeMin options;
     Options.strokeMax := Options.strokeMax options;
     Options.opacityMin := Options.opacityMin options;
     Options.opacityMax := Options.opacityMax options;
     Options.bias := Options.bias options;
     Options.seed := Some seed;
     Options.strokeColor := Options.strokeColor options;
     Options.backgroundColor := Options.backgroundColor options |}.

(** ** The regenerate button of the second demo (demo page, lines 457-470)

    [changeDemo2] on the element that [g('demo2')] returns; [Math_random]
    is the number drawn for the seed. *)
Definition demo2Options (Math_random : R) : Options.t :=
  {| Options.width := None; Options.height := None;
     Options.gridWidth := None; Options.gridHeight := None;
     Options.density := Some 12%Z; Options.freq := Some 6;
     Options.amplitude := Some 1.2;
     Options.strokeMin := Some 0.12; Options.strokeMax := Some 0.32;
     Options.opacityMin := None; Options.opacityMax := None;
     Options.bias := None; Options.seed := Some (Math_floor (Math_random * 1e9));
     Options.strokeColor := Some "#999999"%string;
     Options.backgroundColor := Some "#ffffff"%string |}.

Definition changeDemo2 (toFixed : R -> nat -> string) (Number_toString : R -> string)
    (encodeURIComponent : string -> string) (parseHTML : string -> list Node)
    (computedPosition : HTMLElement -> string) (TypeError : string)
    (cssText : Style -> string) (d3 : D3) (Math_random : R) (demo2 : HTMLElement)
    : HTMLElement * Completion unit :=
  let demo2 := removeInlineWrapper cssText demo2 in
  applyWavelineBackground toFixed Number_toString encodeURIComponent parseHTML
    computedPosition TypeError d3 Math_random demo2 (demo2Options Math_random)
    (Some "inline"%string).

(** The element after one press of the button for each number drawn; an
    error ends one press, not the ones after it. *)
Definition pressChangeDemo2 (toFixed : R -> nat -> string)
    (Number_toString : R -> string) (encodeURIComponent : string -> string)
    (parseHTML : string -> list Node) (computedPosition : HTMLElement -> string)
    (TypeError : string) (cssText : Style -> string) (d3 : D3)
    (draws : list R) (demo2 : HTMLElement) : HTMLElement :=
  fold_left
    (fun demo2 Math_random =>
       fst (changeDemo2 toFixed Number_toString encodeURIComponent parseHTML
              computedPosition TypeError cssText d3 Math_random demo2))
    draws demo2.

(** A browser for the instances below: numbers print as [0], markup parses
    to one empty [svg] element, every element is statically positioned, a
    style attribute lists its declarations as [name: value;]. *)
Module Stub.

Definition toFixed (x : R) (digits : nat) : string := "0.000"%string.

Definition Number_toString (x : R) : string := "0"%string.

Definition encodeURIComponent (s : string) : string := s.

Definition parseHTML (s : string) : list Node := [Elem "svg" [] []].

Definition computedPosition (e : HTMLElement) : string := "static"%string.

Fixpoint cssText (st : Style) : string :=
  match st with
  | [] => EmptyString
  | (k, v) :: st => (cssText st ++ k ++ ": " ++ v ++ "; ")%string
  end.

(** d3-contour answering with no contour. *)
Definition d3 : D3 := d3_contour (fun _ _ _ _ => []).

Definition element : HTMLElement :=
  {| localName := "section"%string;
     style := [("color", "red")]%string;
     childNodes := [Text "Hello"; Elem "p" [] []] |}.

(** The same element with a wrapper of an earlier inline call in front. *)
Definition decorated : HTMLElement :=
  {| localName := "section"%string;
     style := [("position", "relative"); ("color", "red")]%string;
     childNodes := wrapperNode [Elem "svg" [] []] :: childNodes element |}.

(** A contour of one polygon with one ring of two points, and a contour
    of one polygon with two rings. *)
Definition segment : Contour :=
  {| coordinates := [[[(0, 0); (1, 0)]]]%R |}.

Definition twoRings : Contour :=
  {| coordinates := [[[(0, 0); (1, 0)]; [(0, 1); (1, 1)]]]%R |}.

End Stub.

(** * The PRNG is Mulberry32 *)

Section Conversions.

Local Open Scope Z_scope.

Lemma ToUint32_range x : 0 <= ToUint32 x < two32.
Proof. unfold ToUint32, two32. apply Z.mod_pos_bound. lia. Qed.

Lemma ToUint32_small x : 0 <= x < two32 -> ToUint32 x = x.
Proof. intros. unfold ToUint32. apply Z.mod_small. assumption. Qed.

Lemma ToUint32_idem x : ToUint32 (ToUint32 x) = ToUint32 x.
Proof. apply ToUint32_small, ToUint32_range. Qed.

Lemma ToUint32_ToInt32 x : ToUint32 (ToInt32 x) = ToUint32 x.
Proof.
  unfold ToInt32. destruct (2147483648 <=? x mod two32).
  - unfold ToUint32, two32. rewrite Zminus_mod, Z.mod_same, Z.sub_0_r by lia.
    now rewrite !Z.mod_mod by lia.
  - apply ToUint32_idem.
Qed.

(** [ToUint32] keeps the 32 low bits. *)
Lemma ToUint32_testbit x i :
  Z.testbit (ToUint32 x) i = (i <? 32) && Z.testbit x i.
Proof.
  unfold ToUint32, two32. change 4294967296 with (2 ^ 32).
  destruct (Z.ltb_spec i 32).
  - destruct (Z.lt_ge_cases i 0).
    + now rewrite !Z.testbit_neg_r.
    + rewrite Z.mod_pow2_bits_low by lia. reflexivity.
  - rewrite Z.mod_pow2_bits_high by lia. reflexivity.
Qed.

Lemma ToUint32_lxor a b : ToUint32 (Z.lxor a b) = Z.lxor (ToUint32 a) (ToUint32 b).
Proof.
  apply Z.bits_inj'. intros i _.
  rewrite Z.lxor_spec, !ToUint32_testbit, Z.lxor_spec.
  destruct (i <? 32); reflexivity.
Qed.

Lemma ToUint32_lor a b : ToUint32 (Z.lor a b) = Z.lor (ToUint32 a) (ToUint32 b).
Proof.
  apply Z.bits_inj'. intros i _.
  rewrite Z.lor_spec, !ToUint32_testbit, Z.lor_spec.
  destruct (i <? 32); reflexivity.
Qed.

Lemma ToUint32_mul a b : ToUint32 (a * b) = ToUint32 (ToUint32 a * ToUint32 b).
Proof. unfold ToUint32. now rewrite <- Z.mul_mod by (unfold two32; lia). Qed.

Lemma ToUint32_add a b : ToUint32 (a + b) = ToUint32 (ToUint32 a + ToUint32 b).
Proof. unfold ToUint32. now rewrite <- Z.add_mod by (unfold two32; lia). Qed.

Lemma ToUint32_bxor a b : ToUint32 (bxor a b) = Z.lxor (ToUint32 a) (ToUint32 b).
Proof. unfold bxor. now rewrite ToUint32_lxor, !ToUint32_ToInt32. Qed.

Lemma ToUint32_bor a b : ToUint32 (bor a b) = Z.lor (ToUint32 a) (ToUint32 b).
Proof. unfold bor. now rewrite ToUint32_lor, !ToUint32_ToInt32. Qed.

Lemma ToUint32_imul a b : ToUint32 (imul a b) = ToUint32 (ToUint32 a * ToUint32 b).
Proof.
  unfold imul. rewrite ToUint32_ToInt32, ToUint32_mul, !ToUint32_ToInt32. reflexivity.
Qed.

Lemma ushr_range a k : 0 <= k -> 0 <= ushr a k < two32.
Proof.
  intros Hk. unfold ushr. pose proof (ToUint32_range a) as H.
  rewrite Z.shiftr_div_pow2 by assumption.
  assert (0 < 2 ^ k) by (apply Z.pow_pos_nonneg; lia).
  split.
  - apply Z.div_pos; lia.
  - apply Z.le_lt_trans with (ToUint32 a); [|lia].
    apply Z.div_le_upper_bound; nia.
Qed.

Lemma ToUint32_ushr a k : 0 <= k -> ToUint32 (ushr a k) = Z.shiftr (ToUint32 a) k.
Proof. intros. rewrite ToUint32_small by now apply ushr_range. reflexivity. Qed.

(** [Mulberry32.wrap] and [ToUint32] are the same reduction modulo 2^32. *)
Ltac unwrap :=
  repeat match goal with
         | |- context [Mulberry32.wrap ?x] =>
             change (Mulberry32.wrap x) with (ToUint32 x)
         end.

(** The three assignments to [t], read on unsigned words. *)
Lemma mix_round1 a :
  ToUint32 (imul (bxor a (ushr a 15)) (bor a 1))
  = ToUint32 (Z.lxor (ToUint32 a) (Z.shiftr (ToUint32 a) 15) * Z.lor (ToUint32 a) 1).
Proof.
  rewrite ToUint32_imul, ToUint32_bxor, ToUint32_bor, ToUint32_ushr by lia.
  rewrite (ToUint32_small 1) by (unfold two32; lia). reflexivity.
Qed.

Lemma mix_round2 t :
  ToUint32 (bxor t (t + imul (bxor t (ushr t 7)) (bor t 61)))
  = Z.lxor (ToUint32 t)
      (ToUint32 (ToUint32 t
                 + ToUint32 (Z.lxor (ToUint32 t) (Z.shiftr (ToUint32 t) 7)
                             * Z.lor (ToUint32 t) 61))).
Proof.
  rewrite ToUint32_bxor, ToUint32_add.
  rewrite ToUint32_imul, ToUint32_bxor, ToUint32_bor, ToUint32_ushr by lia.
  rewrite (ToUint32_small 61) by (unfold two32; lia). reflexivity.
Qed.

Lemma mix_final t :
  ushr (bxor t (ushr t 14)) 0 = Z.lxor (ToUint32 t) (Z.shiftr (ToUint32 t) 14).
Proof.
  unfold ushr at 1. rewrite Z.shiftr_0_r, ToUint32_bxor, ToUint32_ushr by lia.
  reflexivity.
Qed.

(** Up to 2^53 the addition of Numbers is the addition of integers. *)
Lemma roundTiesToEven_exact x : Z.abs x <= 2 ^ 53 -> roundTiesToEven x = x.
Proof.
  intro Hx. unfold roundTiesToEven. cbv zeta.
  destruct (Z.ltb_spec (Z.abs x) (2 ^ 53)) as [Hlt|Hge]; [reflexivity|].
  assert (Ha : x = 2 ^ 53 \/ x = - 2 ^ 53) by lia.
  destruct Ha as [-> | ->]; reflexivity.
Qed.

(** The bits of one call are the Mulberry32 mix of the low 32 bits of the
    closure variable after its update. *)
Lemma mulberry32_bits_mix g :
  fst (mulberry32_bits g)
  = Mulberry32.mix (ToUint32 (seed_var (snd (mulberry32_bits g)))).
Proof.
  unfold mulberry32_bits, Mulberry32.mix. cbn [fst snd seed_var].
  set (a := roundTiesToEven (seed_var g + 1831565813)). cbv zeta.
  rewrite mix_final, mix_round2, mix_round1.
  reflexivity.
Qed.

Lemma mulberry32_bits_state g :
  seed_var (snd (mulberry32_bits g))
  = roundTiesToEven (seed_var g + Mulberry32.increment).
Proof. reflexivity. Qed.

Lemma mulberry32_call_fst g :
  fst (mulberry32_call g) = (IZR (fst (mulberry32_bits g)) / 4294967296)%R.
Proof. unfold mulberry32_call. destruct (mulberry32_bits g). reflexivity. Qed.

Lemma mulberry32_call_snd g : snd (mulberry32_call g) = snd (mulberry32_bits g).
Proof. unfold mulberry32_call. destruct (mulberry32_bits g). reflexivity. Qed.

Lemma rnd_after_S n g : rnd_after (S n) g = snd (mulberry32_call (rnd_after n g)).
Proof.
  revert g. induction n as [|n IH]; intro g; [reflexivity|].
  change (rnd_after (S (S n)) g) with (rnd_after (S n) (snd (mulberry32_call g))).
  rewrite IH. reflexivity.
Qed.

(** The closure variable is never wrapped: as long as it has not passed
    2^53 it is the seed plus one increment per call. *)
Lemma seed_var_after seed n :
  0 <= seed -> seed + Z.of_nat n * Mulberry32.increment <= 2 ^ 53 ->
  seed_var (rnd_after n (mulberry32 seed)) = seed + Z.of_nat n * Mulberry32.increment.
Proof.
  intro Hs. unfold Mulberry32.increment.
  induction n as [|n IH]; intro Hn; [simpl; lia|].
  rewrite rnd_after_S, mulberry32_call_snd, mulberry32_bits_state, IH by lia.
  unfold Mulberry32.increment. rewrite roundTiesToEven_exact by lia. lia.
Qed.

(** From a 32-bit seed that is so for the first 4917756 calls of a
    stream. *)
Lemma seed_var_exact seed n :
  0 <= seed < 2 ^ 32 -> Z.of_nat n <= 4917756 ->
  seed_var (rnd_after n (mulberry32 seed)) = seed + Z.of_nat n * Mulberry32.increment
  /\ 0 <= seed_var (rnd_after n (mulberry32 seed)) <= 2 ^ 53.
Proof.
  intros Hs Hn.
  assert (H : seed + Z.of_nat n * Mulberry32.increment <= 2 ^ 53)
    by (unfold Mulberry32.increment; lia).
  rewrite seed_var_after by lia. unfold Mulberry32.increment in *. lia.
Qed.

(** The 32-bit accumulator is the seed plus one increment per draw, modulo
    2^32. *)
Lemma Mulberry32_state_sum seed n :
  ToUint32 (Mulberry32.state seed n) = ToUint32 (seed + Z.of_nat n * Mulberry32.increment).
Proof.
  induction n as [|n IH]; [f_equal; simpl; lia|].
  cbn [Mulberry32.state]. unfold Mulberry32.advance. unwrap.
  rewrite ToUint32_idem, ToUint32_add, IH, <- ToUint32_add. f_equal. lia.
Qed.

(** Modulo 2^32 the closure variable is the 32-bit accumulator. *)
Lemma rnd_after_state seed n :
  0 <= seed -> seed + Z.of_nat n * Mulberry32.increment <= 2 ^ 53 ->
  ToUint32 (seed_var (rnd_after n (mulberry32 seed)))
  = ToUint32 (Mulberry32.state seed n).
Proof.
  intros Hs Hn. rewrite seed_var_after, Mulberry32_state_sum by assumption.
  reflexivity.
Qed.

Lemma mix_range a : 0 <= Mulberry32.mix a < two32.
Proof.
  unfold Mulberry32.mix. unwrap.
  set (t1 := ToUint32 _). set (t2 := Z.lxor t1 _).
  assert (H2 : ToUint32 t2 = t2).
  { unfold t2. rewrite ToUint32_lxor, ToUint32_idem.
    f_equal. unfold t1. apply ToUint32_idem. }
  assert (H3 : ToUint32 (Z.lxor t2 (Z.shiftr t2 14)) = Z.lxor t2 (Z.shiftr t2 14)).
  { rewrite ToUint32_lxor, H2. f_equal. rewrite <- H2 at 1.
    change (Z.shiftr (ToUint32 t2) 14) with (ushr t2 14).
    rewrite ToUint32_ushr, H2 by lia. reflexivity. }
  rewrite <- H3. apply ToUint32_range.
Qed.

(** The accumulator after a draw, as a 32-bit word. *)
Lemma Mulberry32_state_S seed n :
  Mulberry32.state seed (S n)
  = ToUint32 (seed + (Z.of_nat n + 1) * Mulberry32.increment).
Proof.
  cbn [Mulberry32.state]. unfold Mulberry32.advance. unwrap.
  rewrite ToUint32_add, Mulberry32_state_sum, <- ToUint32_add. f_equal. lia.
Qed.

Lemma rnd_bits_output seed n :
  0 <= seed -> seed + (Z.of_nat n + 1) * Mulberry32.increment <= 2 ^ 53 ->
  fst (mulberry32_bits (rnd_after n (mulberry32 seed))) = Mulberry32.output seed n.
Proof.
  intros Hs Hn.
  assert (Hinc : 0 < Mulberry32.increment) by (unfold Mulberry32.increment; lia).
  rewrite mulberry32_bits_mix, mulberry32_bits_state, seed_var_after by nia.
  unfold Mulberry32.output. rewrite Mulberry32_state_S.
  rewrite roundTiesToEven_exact by nia. do 2 f_equal. lia.
Qed.

End Conversions.

(** Every call returns a number in [0, 1), whatever the closure variable
    has become. *)
Lemma rnd_nth_unit seed n : 0 <= rnd_nth (mulberry32 seed) n < 1.
Proof.
  unfold rnd_nth. rewrite mulberry32_call_fst, mulberry32_bits_mix.
  set (a := ToUint32 _).
  pose proof (mix_range a) as Hout. unfold two32 in Hout.
  assert (0 <= IZR (Mulberry32.mix a)) by (apply IZR_le; lia).
  assert (IZR (Mulberry32.mix a) < 4294967296) by (apply IZR_lt; lia).
  lra.
Qed.

(** C3 (amended): for every 32-bit seed and every number [n] of earlier
    calls such that the closure variable, the seed plus 0x6D2B79F5 per
    call, has not passed 2^53 by the end of the next call, the closure
    variable is, modulo 2^32, the Mulberry32 accumulator after [n] wrapping
    additions of 0x6D2B79F5; the bits of the next call are the Mulberry32
    output word (two xor-shift-multiply rounds on 32-bit words); the
    returned number is that word divided by 2^32, a function of the seed
    and of [n] alone, and lies in [0, 1).  The first 4917756 calls of any
    stream are covered. *)
Theorem mulberry32_refines_Mulberry32 (seed : Z) (n : nat) :
  (0 <= seed < 2 ^ 32)%Z ->
  (seed + (Z.of_nat n + 1) * 0x6D2B79F5 <= 2 ^ 53)%Z ->
  ToUint32 (seed_var (rnd_after n (mulberry32 seed))) = Mulberry32.state seed n
  /\ fst (mulberry32_bits (rnd_after n (mulberry32 seed))) = Mulberry32.output seed n
  /\ (0 <= Mulberry32.output seed n < 2 ^ 32)%Z
  /\ rnd_nth (mulberry32 seed) n = IZR (Mulberry32.output seed n) / 2 ^ 32
  /\ 0 <= rnd_nth (mulberry32 seed) n < 1.
Proof.
  intros Hseed Hn.
  assert (Hn' : (seed + Z.of_nat n * Mulberry32.increment <= 2 ^ 53)%Z)
    by (unfold Mulberry32.increment; lia).
  repeat split.
  - rewrite rnd_after_state by (assumption || lia). destruct n as [|n].
    + apply ToUint32_small. exact Hseed.
    + cbn [Mulberry32.state]. unfold Mulberry32.advance, Mulberry32.wrap.
      apply Z.mod_mod. lia.
  - apply rnd_bits_output; [lia|exact Hn].
  - apply (mix_range (Mulberry32.state seed (S n))).
  - apply (mix_range (Mulberry32.state seed (S n))).
  - unfold rnd_nth. rewrite mulberry32_call_fst, rnd_bits_output by (lia || exact Hn).
    f_equal. lra.
  - apply rnd_nth_unit.
  - apply rnd_nth_unit.
Qed.

(** C3, as stated, fails on the code: the 4917759th call of the stream of
    seed 0 takes the closure variable past 2^53, to an odd sum that the
    Number rounds, and returns another word than Mulberry32. *)
Lemma mulberry32_leaves_Mulberry32 :
  let n := Z.to_nat 4917758 in
  (0 + (Z.of_nat n + 1) * 0x6D2B79F5 = 2 ^ 53 + 6232075)%Z
  /\ fst (mulberry32_bits (rnd_after n (mulberry32 0))) = 2430946484%Z
  /\ Mulberry32.output 0 n = 3767445004%Z.
Proof.
  cbv zeta. split; [rewrite Z2Nat.id by lia; reflexivity|]. split.
  - pose proof (seed_var_after 0 (Z.to_nat 4917758)) as H.
    rewrite Z2Nat.id in H by lia.
    specialize (H ltac:(lia) ltac:(unfold Mulberry32.increment; lia)).
    destruct (rnd_after (Z.to_nat 4917758) (mulberry32 0)) as [v].
    cbn [seed_var] in H. subst v. vm_compute. reflexivity.
  - unfold Mulberry32.output. rewrite Mulberry32_state_S.
    rewrite Z2Nat.id by lia. vm_compute. reflexivity.
Qed.

(** * Loops that fill an array *)

Lemma zrange_length k n : length (zrange k n) = n.
Proof. revert k. induction n; intro k; simpl; auto. Qed.

Lemma zrange_nth n : forall k m d, (m < n)%nat -> nth m (zrange k n) d = (k + Z.of_nat m)%Z.
Proof.
  induction n as [|n IH]; intros k m d Hm; [lia|].
  destruct m as [|m]; simpl zrange; cbn [nth]; [lia|].
  rewrite IH by lia. lia.
Qed.

Lemma zrange_In n : forall k x, In x (zrange k n) <-> (k <= x < k + Z.of_nat n)%Z.
Proof.
  induction n as [|n IH]; intros k x; simpl zrange.
  - simpl. lia.
  - cbn [In]. rewrite IH. lia.
Qed.

(** A loop whose body appends to an array appends the pieces in counter
    order. *)
Lemma for_count_append {A} (g : Z -> list A) (body : Z -> list A -> list A) :
  (forall k s, body k s = s ++ g k) ->
  forall n k s, for_count n k body s = s ++ flat_map g (zrange k n).
Proof.
  intros Hbody. induction n as [|n IH]; intros k s; simpl.
  - now rewrite app_nil_r.
  - rewrite IH, Hbody, <- app_assoc. reflexivity.
Qed.

Lemma for_lt_append {A} (g : Z -> list A) (body : Z -> list A -> list A) :
  (forall k s, body k s = s ++ g k) ->
  forall start stop s,
    for_lt start stop body s = s ++ flat_map g (zrange start (Z.to_nat (stop - start))).
Proof. intros. unfold for_lt. now apply for_count_append. Qed.

Lemma flat_map_singleton {A B} (f : A -> B) l : flat_map (fun x => [f x]) l = map f l.
Proof. induction l; simpl; congruence. Qed.

Lemma flat_map_rows_length {A B} (f : A -> list B) w l :
  (forall x, length (f x) = w) -> length (flat_map f l) = (length l * w)%nat.
Proof.
  intros Hw. induction l as [|x l IH]; simpl; [reflexivity|].
  rewrite length_app, IH, Hw. reflexivity.
Qed.

(** Row-major addressing of rows of equal width. *)
Lemma flat_map_rows_nth {A B} (f : A -> list B) w (dx : A) (d : B) :
  (forall x, length (f x) = w) ->
  forall l j i, (j < length l)%nat -> (i < w)%nat ->
    nth (j * w + i) (flat_map f l) d = nth i (f (nth j l dx)) d.
Proof.
  intros Hw. induction l as [|x l IH]; intros j i Hj Hi; simpl in Hj; [lia|].
  simpl flat_map. destruct j as [|j].
  - simpl. rewrite app_nth1 by (rewrite Hw; exact Hi). reflexivity.
  - rewrite app_nth2 by (rewrite Hw; simpl; lia).
    rewrite Hw. replace (S j * w + i - w)%nat with (j * w + i)%nat by (simpl; lia).
    rewrite IH by lia. reflexivity.
Qed.

(** * The scalar field *)

(** The expression of lines 61-67 is the cell value of the specification. *)
Lemma cell_code gridW gridH freq amplitude phase1 phase2 phase3 i j :
  (let f := freq / 10 in
   let nx := IZR i / IZR gridW - 0.5 in
   let ny := IZR j / IZR gridH - 0.5 in
   let v1 := sin (nx * PI * 2 * f + phase1) + sin (ny * PI * 2 * f * 0.9 + phase2) in
   let v2 := 0.6 * sin ((nx + ny) * PI * 2 * f * 0.7 + phase3) in
   let v3 := 0.4 * sin ((nx - ny) * PI * 2 * f * 0.5 - phase2) in
   (v1 + v2 + v3) * amplitude)
  = Spec.cell gridW gridH freq amplitude phase1 phase2 phase3 i j.
Proof.
  unfold Spec.cell. cbv zeta.
  set (nx := IZR i / IZR gridW - 0.5). set (ny := IZR j / IZR gridH - 0.5).
  set (f := freq / 10).
  replace (nx * PI * 2 * f + phase1) with (2 * PI * f * nx + phase1) by ring.
  replace (ny * PI * 2 * f * 0.9 + phase2) with (2 * PI * (0.9 * f) * ny + phase2) by ring.
  replace ((nx + ny) * PI * 2 * f * 0.7 + phase3)
    with (2 * PI * (0.7 * f) * (nx + ny) + phase3) by ring.
  replace ((nx - ny) * PI * 2 * f * 0.5 - phase2)
    with (2 * PI * (0.5 * f) * (nx - ny) - phase2) by ring.
  ring.
Qed.

(** [generateField] row by row, and the closure it leaves. *)
Lemma generateField_run_rows gridW gridH freq amplitude seed :
  let g := mulberry32 (ToUint32 seed) in
  generateField_run gridW gridH freq amplitude seed
  = (flat_map
       (fun j => map (fun i => Spec.cell gridW gridH freq amplitude
                                 (Spec.phase g 0) (Spec.phase g 1) (Spec.phase g 2) i j)
                   (zrange 0 (Z.to_nat gridW)))
       (zrange 0 (Z.to_nat gridH)),
     rnd_after 3 g).
Proof.
  intro g. unfold generateField_run.
  replace (ushr seed 0) with (ToUint32 seed) by (unfold ushr; now rewrite Z.shiftr_0_r).
  fold g. unfold Spec.phase, rnd_nth. cbn [rnd_after].
  destruct (mulberry32_call g) as [r1 g1]. cbn [fst snd].
  destruct (mulberry32_call g1) as [r2 g2]. cbn [fst snd].
  destruct (mulberry32_call g2) as [r3 g3]. cbn [fst snd].
  f_equal.
  rewrite (for_lt_append
             (fun j => map (fun i => Spec.cell gridW gridH freq amplitude
                                       (r1 * (2 * PI)) (r2 * (2 * PI)) (r3 * (2 * PI)) i j)
                         (zrange 0 (Z.to_nat gridW)))).
  - rewrite Z.sub_0_r. reflexivity.
  - intros j s.
    rewrite (for_lt_append
               (fun i => [Spec.cell gridW gridH freq amplitude
                            (r1 * (2 * PI)) (r2 * (2 * PI)) (r3 * (2 * PI)) i j])).
    + rewrite Z.sub_0_r, flat_map_singleton. reflexivity.
    + intros i s'. f_equal. f_equal.
      replace (r1 * (2 * PI)) with (r1 * PI * 2) by ring.
      replace (r2 * (2 * PI)) with (r2 * PI * 2) by ring.
      replace (r3 * (2 * PI)) with (r3 * PI * 2) by ring.
      apply cell_code.
Qed.

(** C1: for grid sizes of at least 2 and a 32-bit seed, [generateField]
    calls the seeded generator exactly three times (the closure is left as
    after three calls); the phases are the first, second and third drawn
    numbers times 2 pi, each in [0, 2 pi); the field has
    gridWidth * gridHeight values and the value at row-major index
    j * gridWidth + i is the cell value of the specification. *)
Theorem generateField_row_major (gridWidth gridHeight : Z) (freq amplitude : R) (seed : Z) :
  (2 <= gridWidth)%Z -> (2 <= gridHeight)%Z -> (0 <= seed < 2 ^ 32)%Z ->
  let g := mulberry32 seed in
  let field := generateField gridWidth gridHeight freq amplitude seed in
  snd (generateField_run gridWidth gridHeight freq amplitude seed) = rnd_after 3 g
  /\ (forall n, 0 <= Spec.phase g n < 2 * PI)
  /\ length field = Z.to_nat (gridWidth * gridHeight)
  /\ forall i j, (0 <= i < gridWidth)%Z -> (0 <= j < gridHeight)%Z ->
       nth (Z.to_nat (j * gridWidth + i)) field 0
       = Spec.cell gridWidth gridHeight freq amplitude
           (Spec.phase g 0) (Spec.phase g 1) (Spec.phase g 2) i j.
Proof.
  intros HW HH Hseed g field.
  assert (Hs : ToUint32 seed = seed) by (apply ToUint32_small; exact Hseed).
  pose proof (generateField_run_rows gridWidth gridHeight freq amplitude seed) as Hrun.
  cbv zeta in Hrun. rewrite Hs in Hrun. fold g in Hrun.
  split; [rewrite Hrun; reflexivity|].
  split.
  { intro n. pose proof (rnd_nth_unit seed n) as Hr. fold g in Hr.
    unfold Spec.phase. pose proof PI_RGT_0. split; nra. }
  set (row := fun j => map (fun i => Spec.cell gridWidth gridHeight freq amplitude
                 (Spec.phase g 0) (Spec.phase g 1) (Spec.phase g 2) i j)
                 (zrange 0 (Z.to_nat gridWidth))) in Hrun.
  assert (Hrow : forall j, length (row j) = Z.to_nat gridWidth).
  { intro j. unfold row. rewrite length_map, zrange_length. reflexivity. }
  unfold field, generateField. rewrite Hrun. cbn [fst].
  split.
  - rewrite (flat_map_rows_length _ (Z.to_nat gridWidth)) by exact Hrow.
    rewrite zrange_length. lia.
  - intros i j Hi Hj.
    replace (Z.to_nat (j * gridWidth + i))
      with (Z.to_nat j * Z.to_nat gridWidth + Z.to_nat i)%nat by nia.
    rewrite (flat_map_rows_nth _ (Z.to_nat gridWidth) 0%Z) by
      (try exact Hrow; rewrite ?zrange_length; lia).
    rewrite zrange_nth by lia. unfold row.
    rewrite (nth_indep _ 0 (Spec.cell gridWidth gridHeight freq amplitude
               (Spec.phase g 0) (Spec.phase g 1) (Spec.phase g 2)
               0%Z (0 + Z.of_nat (Z.to_nat j))%Z))
      by (rewrite length_map, zrange_length; lia).
    rewrite (map_nth (fun i => Spec.cell gridWidth gridHeight freq amplitude
               (Spec.phase g 0) (Spec.phase g 1) (Spec.phase g 2)
               i (0 + Z.of_nat (Z.to_nat j))%Z)).
    rewrite zrange_nth by lia.
    f_equal; lia.
Qed.

(** * Thresholds *)

(** An increasing function maps the counter values to an increasing list. *)
Lemma zrange_map_sorted (f : Z -> R) n : forall k,
  (forall a b, (k <= a)%Z -> (a < b)%Z -> (b < k + Z.of_nat n)%Z -> f a < f b) ->
  StronglySorted Rlt (map f (zrange k n)).
Proof.
  induction n as [|n IH]; intros k Hf; simpl; constructor.
  - apply IH. intros a b Ha Hab Hb. apply Hf; lia.
  - apply Forall_forall. intros y Hy. apply in_map_iff in Hy.
    destruct Hy as (x & <- & Hx). apply zrange_In in Hx. apply Hf; lia.
Qed.

Lemma Math_pow_pos_base x y : 0 < x -> Math_pow x y = Rpower x y.
Proof. intro Hx. unfold Math_pow. destruct (Rlt_dec 0 x); [reflexivity|contradiction]. Qed.

Lemma Rpower_unit x c : 0 < x < 1 -> 0 < c -> 0 < Rpower x c < 1.
Proof.
  intros Hx Hc. unfold Rpower. split; [apply exp_pos|].
  rewrite <- exp_0. apply exp_increasing.
  assert (ln x < 0) by (rewrite <- ln_1; apply ln_increasing; lra).
  nra.
Qed.

(** The three branches of [applyBias]. *)
Lemma applyBias_zero u : applyBias u 0 = u.
Proof. unfold applyBias. destruct (Req_dec_T 0 0); [reflexivity|lra]. Qed.

Lemma applyBias_positive u bias :
  0 < bias -> applyBias u bias = Math_pow u (1 + bias).
Proof.
  intro H. unfold applyBias.
  destruct (Req_dec_T bias 0); [lra|]. destruct (Rgt_dec bias 0); [reflexivity|lra].
Qed.

Lemma applyBias_negative u bias :
  bias < 0 -> applyBias u bias = 1 - Math_pow (1 - u) (1 - bias).
Proof.
  intro H. unfold applyBias.
  destruct (Req_dec_T bias 0); [lra|]. destruct (Rgt_dec bias 0); [lra|reflexivity].
Qed.

(** On (0, 1) [applyBias] is the bias curve of the specification. *)
Lemma applyBias_biasCurve u bias :
  0 < u < 1 -> applyBias u bias = Spec.biasCurve bias u.
Proof.
  intro Hu. unfold Spec.biasCurve.
  destruct (total_order_T bias 0) as [[Hneg|Hzero]|Hpos].
  - rewrite applyBias_negative, Math_pow_pos_base by lra. reflexivity.
  - subst. apply applyBias_zero.
  - rewrite applyBias_positive, Math_pow_pos_base by lra. reflexivity.
Qed.

(** On (0, 1) the bias curve stays in (0, 1) and is strictly increasing,
    whatever the bias. *)
Lemma biasCurve_unit bias u : 0 < u < 1 -> 0 < Spec.biasCurve bias u < 1.
Proof.
  intros Hu. unfold Spec.biasCurve.
  destruct (total_order_T bias 0) as [[Hneg|Hzero]|Hpos].
  - assert (0 < Rpower (1 - u) (1 - bias) < 1) by (apply Rpower_unit; lra). lra.
  - exact Hu.
  - apply Rpower_unit; lra.
Qed.

Lemma biasCurve_increasing bias u v :
  0 < u -> u < v -> v < 1 -> Spec.biasCurve bias u < Spec.biasCurve bias v.
Proof.
  intros Hu Huv Hv. unfold Spec.biasCurve.
  destruct (total_order_T bias 0) as [[Hneg|Hzero]|Hpos].
  - assert (Rpower (1 - v) (1 - bias) < Rpower (1 - u) (1 - bias))
      by (apply Rlt_Rpower_l; lra).
    lra.
  - exact Huv.
  - apply Rlt_Rpower_l; lra.
Qed.

(** The position [k / (density + 1)] of threshold [k]. *)
Lemma position_unit density k :
  (1 <= k <= density)%Z -> 0 < IZR k / IZR (density + 1) < 1.
Proof.
  intros Hk.
  assert (0 < IZR k) by (apply IZR_lt; lia).
  assert (IZR k < IZR (density + 1)) by (apply IZR_lt; lia).
  split.
  - apply Rdiv_lt_0_compat; lra.
  - apply Rmult_lt_reg_r with (IZR (density + 1)); [lra|].
    unfold Rdiv. rewrite Rmult_assoc, Rinv_l by lra. lra.
Qed.

Lemma position_increasing density a b :
  (1 <= a)%Z -> (a < b)%Z -> (b <= density)%Z ->
  IZR a / IZR (density + 1) < IZR b / IZR (density + 1).
Proof.
  intros Ha Hab Hb.
  assert (0 < IZR (density + 1)) by (apply IZR_lt; lia).
  assert (IZR a < IZR b) by (apply IZR_lt; lia).
  unfold Rdiv. apply Rmult_lt_compat_r; [apply Rinv_0_lt_compat|]; lra.
Qed.

(** The loop of lines 181-185 in closed form. *)
Lemma thresholds_map field density bias :
  thresholds field density bias
  = map (fun k => Math_min field
                  + applyBias (IZR k / IZR (density + 1)) bias
                    * (Math_max field - Math_min field))
      (zrange 1 (Z.to_nat density)).
Proof.
  unfold thresholds.
  rewrite (for_lt_append
             (fun k => [Math_min field
                        + applyBias (IZR k / IZR (density + 1)) bias
                          * (Math_max field - Math_min field)]))
    by reflexivity.
  rewrite flat_map_singleton. simpl app.
  replace (density + 1 - 1)%Z with density by lia. reflexivity.
Qed.

(** With a density of at least 1 every position is in (0, 1), where
    [applyBias] is the bias curve. *)
Lemma thresholds_biasCurve field density bias :
  thresholds field density bias
  = map (fun k => Math_min field
                  + Spec.biasCurve bias (IZR k / IZR (density + 1))
                    * (Math_max field - Math_min field))
      (zrange 1 (Z.to_nat density)).
Proof.
  rewrite thresholds_map. apply map_ext_in. intros k Hk.
  apply zrange_In in Hk. rewrite applyBias_biasCurve; [reflexivity|].
  apply position_unit. lia.
Qed.

(** C5: for a field that has a minimum and a maximum (it is not empty) and
    a density of at least 1, the planner produces exactly [density]
    thresholds, and the k-th (k = 1..density) is
    min + B (k / (density + 1)) * (max - min) for the bias curve B. *)
Theorem thresholds_formula (field : list R) (density : Z) (bias : R) :
  field <> [] ->
  (1 <= density)%Z ->
  let min := Math_min field in
  let max := Math_max field in
  let levels := thresholds field density bias in
  length levels = Z.to_nat density
  /\ forall k, (1 <= k <= density)%Z ->
       nth (Z.to_nat (k - 1)) levels 0
       = min + Spec.biasCurve bias (IZR k / IZR (density + 1)) * (max - min).
Proof.
  intros _ Hd min max levels. unfold levels. rewrite thresholds_biasCurve.
  split; [now rewrite length_map, zrange_length|].
  intros k Hk.
  set (f := fun k : Z => _).
  rewrite (nth_indep _ 0 (f 0%Z)) by (rewrite length_map, zrange_length; lia).
  rewrite map_nth, zrange_nth by lia.
  unfold f. fold min max. repeat f_equal; lia.
Qed.

(** C2 (amended): when the minimum of the field is below its maximum, the
    density is at least 1 and the bias is in [-1, 1], the exact values of
    the threshold expressions are strictly increasing and each lies
    strictly between the minimum and the maximum.  (The doubles computed
    from them need not be: see [thresholds_repeat_on_doubles].) *)
Theorem thresholds_increasing_interior (field : list R) (density : Z) (bias : R) :
  Math_min field < Math_max field ->
  (1 <= density)%Z ->
  -1 <= bias <= 1 ->
  let levels := thresholds field density bias in
  StronglySorted Rlt levels
  /\ Forall (fun t => Math_min field < t < Math_max field) levels.
Proof.
  intros Hrange Hd _ levels. unfold levels. rewrite thresholds_biasCurve. split.
  - apply zrange_map_sorted. intros a b Ha Hab Hb.
    apply Rplus_lt_compat_l, Rmult_lt_compat_r; [lra|].
    pose proof (position_unit density a ltac:(lia)).
    pose proof (position_unit density b ltac:(lia)).
    apply biasCurve_increasing; try lra. apply position_increasing; lia.
  - apply Forall_forall. intros t Ht. apply in_map_iff in Ht.
    destruct Ht as (k & <- & Hk). apply zrange_In in Hk.
    pose proof (biasCurve_unit bias (IZR k / IZR (density + 1))
                  (position_unit density k ltac:(lia))).
    nra.
Qed.

(** The planner on doubles over a field whose range is one unit in the last
    place: two of three thresholds coincide with the minimum. *)
Example thresholds_on_doubles (Math_pow : float -> float -> float) :
  F64.thresholds Math_pow [1; 0x1.0000000000001p+0]%float 3 0%float
  = [1; 1; 0x1.0000000000001p+0]%float.
Proof. reflexivity. Qed.

(** C2, as stated, fails on the code: on the doubles 1 and 1 + 2^-52, a
    field with minimum below maximum, with density 3 and bias 0, the
    thresholds are neither strictly increasing nor strictly inside the
    range, whatever [Math.pow] is. *)
Lemma thresholds_repeat_on_doubles :
  let field := [1; 0x1.0000000000001p+0]%float in
  F64.lt (F64.Math_min field) (F64.Math_max field)
  /\ ~ (exists Math_pow,
          let levels := F64.thresholds Math_pow field 3 0%float in
          StronglySorted F64.lt levels
          /\ Forall (fun t => F64.lt (F64.Math_min field) t
                              /\ F64.lt t (F64.Math_max field)) levels).
Proof.
  cbv zeta. split; [reflexivity|].
  intros (Math_pow & Hsorted & _).
  rewrite thresholds_on_doubles in Hsorted.
  inversion Hsorted as [|x xs _ Hall]; subst.
  inversion Hall as [|y ys Hlt _]; subst.
  discriminate Hlt.
Qed.

(** * Contour paths *)

Section Paths.

Variable toFixed : R -> nat -> string.

Local Open Scope string_scope.

Lemma append_assoc (a b c : string) : (a ++ b) ++ c = a ++ (b ++ c).
Proof. induction a as [|x a IH]; simpl; [reflexivity|now rewrite IH]. Qed.

Lemma append_nil_r (a : string) : a ++ "" = a.
Proof. induction a as [|x a IH]; simpl; [reflexivity|now rewrite IH]. Qed.

Lemma concat_nil_cons (s : string) (l : list string) :
  String.concat "" (s :: l) = s ++ String.concat "" l.
Proof. destruct l; simpl; [now rewrite append_nil_r|reflexivity]. Qed.

Lemma concat_nil_app (l1 l2 : list string) :
  String.concat "" (l1 ++ l2) = String.concat "" l1 ++ String.concat "" l2.
Proof.
  induction l1 as [|s l1 IH]; [reflexivity|].
  change ((s :: l1) ++ l2)%list with (s :: (l1 ++ l2))%list.
  rewrite !concat_nil_cons, IH, append_assoc. reflexivity.
Qed.

Lemma pathText_app (a b : list Spec.PathOp) :
  Spec.pathText toFixed (a ++ b) = Spec.pathText toFixed a ++ Spec.pathText toFixed b.
Proof. unfold Spec.pathText. now rewrite map_app, concat_nil_app. Qed.

Lemma pathText_cons op (ops : list Spec.PathOp) :
  Spec.pathText toFixed (op :: ops) = Spec.opText toFixed op ++ Spec.pathText toFixed ops.
Proof. unfold Spec.pathText. cbn [map]. apply concat_nil_cons. Qed.

Lemma pathText_single op : Spec.pathText toFixed [op] = Spec.opText toFixed op.
Proof. reflexivity. Qed.

(** [forEach] with a body that appends the text of operations. *)
Lemma forEach_from_text {A} (g : A -> list Spec.PathOp)
    (body : A -> nat -> string -> string) :
  forall xs idx,
    (forall x i s, In x xs -> (idx <= i)%nat ->
                   body x i s = s ++ Spec.pathText toFixed (g x)) ->
    forall s, forEach_from xs idx body s = s ++ Spec.pathText toFixed (flat_map g xs).
Proof.
  induction xs as [|x xs IH]; intros idx Hbody s; simpl.
  - unfold Spec.pathText. simpl. now rewrite append_nil_r.
  - rewrite IH by (intros; apply Hbody; simpl; auto; lia).
    rewrite Hbody by (simpl; auto). rewrite pathText_app, append_assoc. reflexivity.
Qed.

(** Lines 93-98: the text appended for one ring. *)
Lemma ring_text sx sy ox oy ring d :
  forEach ring (fun pt idx d =>
    let x := (fst pt * sx - ox)%R in
    let y := (snd pt * sy - oy)%R in
    d ++ ((if Nat.eqb idx 0 then "M " else "L ")
          ++ toFixed x 3 ++ " " ++ toFixed y 3 ++ " ")) d ++ "Z "
  = d ++ Spec.pathText toFixed (Spec.ringOps sx sy ox oy ring).
Proof.
  unfold forEach. destruct ring as [|p ps]; cbn [forEach_from Nat.eqb].
  - reflexivity.
  - rewrite (forEach_from_text
               (fun q => [Spec.LineTo (fst q * sx - ox) (snd q * sy - oy)])).
    + unfold Spec.ringOps. rewrite pathText_cons, pathText_app, flat_map_singleton.
      rewrite pathText_single. unfold Spec.opText. rewrite !append_assoc. reflexivity.
    + intros q i s _ Hi. destruct i as [|i]; [lia|]. cbn [Nat.eqb].
      rewrite pathText_single. reflexivity.
Qed.

(** Lines 90-100: the text accumulated in [d]. *)
Lemma contour_text sx sy ox oy contour :
  forEach (coordinates contour) (fun poly _ d =>
    forEach poly (fun ring _ d =>
      let d :=
        forEach ring (fun pt idx d =>
          let x := (fst pt * sx - ox)%R in
          let y := (snd pt * sy - oy)%R in
          d ++ ((if Nat.eqb idx 0 then "M " else "L ")
                ++ toFixed x 3 ++ " " ++ toFixed y 3 ++ " ")) d in
      d ++ "Z ") d) ""
  = Spec.pathText toFixed (Spec.contourOps sx sy ox oy contour).
Proof.
  unfold forEach at 1. unfold Spec.contourOps.
  rewrite (forEach_from_text (flat_map (Spec.ringOps sx sy ox oy))); [reflexivity|].
  intros poly _ s _ _. unfold forEach at 1.
  apply forEach_from_text. intros ring _ s' _ _. apply ring_text.
Qed.

(** Trimming the text of a path only drops its final space. *)
Lemma trimEnd_close (s : string) : trimEnd (s ++ "Z ") = s ++ "Z".
Proof.
  induction s as [|c s IH]; [reflexivity|].
  cbn [append trimEnd]. rewrite IH.
  destruct s; reflexivity.
Qed.

Lemma opensRing_app a b : opensRing a -> opensRing b -> opensRing (a ++ b).
Proof. destruct a as [|[]]; simpl; auto. Qed.

Lemma closesRing_app a b : closesRing a -> closesRing b -> closesRing (a ++ b).
Proof.
  intros Ha [->|(b' & ->)]; [now rewrite app_nil_r|].
  right. exists (a ++ b')%list. now rewrite app_assoc.
Qed.

Lemma flat_map_opens_closes {A} (f : A -> list Spec.PathOp) l :
  (forall x, opensRing (f x) /\ closesRing (f x)) ->
  opensRing (flat_map f l) /\ closesRing (flat_map f l).
Proof.
  intro Hf. induction l as [|x l [IHo IHc]]; simpl.
  - split; [exact I|now left].
  - destruct (Hf x). split; [now apply opensRing_app|now apply closesRing_app].
Qed.

Lemma ringOps_opens_closes sx sy ox oy ring :
  opensRing (Spec.ringOps sx sy ox oy ring) /\ closesRing (Spec.ringOps sx sy ox oy ring).
Proof.
  destruct ring as [|p ps]; simpl; split; try exact I; right.
  - now exists [].
  - now exists (Spec.MoveTo (fst p * sx - ox) (snd p * sy - oy)
                :: map (fun q => Spec.LineTo (fst q * sx - ox) (snd q * sy - oy)) ps).
Qed.

Lemma contourOps_opens_closes sx sy ox oy contour :
  opensRing (Spec.contourOps sx sy ox oy contour)
  /\ closesRing (Spec.contourOps sx sy ox oy contour).
Proof.
  unfold Spec.contourOps. apply flat_map_opens_closes. intro poly.
  apply flat_map_opens_closes. intro ring. apply ringOps_opens_closes.
Qed.

Lemma trim_pathText ops :
  opensRing ops -> closesRing ops -> ops <> [] ->
  trim (Spec.pathText toFixed ops) ++ " " = Spec.pathText toFixed ops.
Proof.
  intros Ho [->|(ops' & ->)] Hne; [contradiction|]. clear Hne.
  unfold trim.
  assert (Hstart : trimStart (Spec.pathText toFixed (ops' ++ [Spec.ClosePath]))
                   = Spec.pathText toFixed (ops' ++ [Spec.ClosePath])).
  { destruct ops' as [|[x y|x y|] ops']; try contradiction;
      cbn [app]; rewrite ?pathText_cons; reflexivity. }
  rewrite Hstart, pathText_app, pathText_single. cbn [Spec.opText].
  rewrite trimEnd_close, append_assoc. reflexivity.
Qed.

End Paths.

Lemma filter_isClose_ringOps sx sy ox oy ring :
  length (filter Spec.isClose (Spec.ringOps sx sy ox oy ring)) = 1%nat.
Proof.
  destruct ring as [|p ps]; [reflexivity|].
  unfold Spec.ringOps. cbn [filter Spec.isClose]. rewrite filter_app.
  cbn [filter Spec.isClose]. rewrite length_app. cbn [length].
  replace (filter Spec.isClose (map _ ps)) with (@nil Spec.PathOp); [reflexivity|].
  induction ps; simpl; auto.
Qed.

(** One close operation per ring. *)
Lemma closes_per_ring sx sy ox oy contour :
  length (filter Spec.isClose (Spec.contourOps sx sy ox oy contour))
  = length (concat (coordinates contour)).
Proof.
  unfold Spec.contourOps. induction (coordinates contour) as [|poly polys IH];
    [reflexivity|].
  cbn [flat_map concat]. rewrite filter_app, !length_app, IH. f_equal.
  clear IH. induction poly as [|ring poly IH]; [reflexivity|].
  cbn [flat_map length]. rewrite filter_app, length_app, IH, filter_isClose_ringOps.
  reflexivity.
Qed.

(** C8: the path of a contour is the text of its operations (for each ring
    a move to the first point, a line to every later point, one close; each
    point (x, y) at (x * scaleX - offsetX, y * scaleY - offsetY), each
    coordinate printed by [toFixed] with 3 digits), less the final space;
    the operations hold exactly one close per ring. *)
Theorem contourToPath_operations (toFixed : R -> nat -> string)
    (contour : Contour) (scaleX scaleY offsetX offsetY : R) :
  let ops := Spec.contourOps scaleX scaleY offsetX offsetY contour in
  let path := contourToPath toFixed contour scaleX scaleY offsetX offsetY in
  path = trim (Spec.pathText toFixed ops)
  /\ (ops <> [] -> (path ++ " ")%string = Spec.pathText toFixed ops)
  /\ length (filter Spec.isClose ops) = length (concat (coordinates contour)).
Proof.
  intros ops path.
  assert (Hpath : path = trim (Spec.pathText toFixed ops)).
  { unfold path, contourToPath. cbv zeta. f_equal. apply contour_text. }
  split; [exact Hpath|]. split.
  - intro Hne. rewrite Hpath.
    destruct (contourOps_opens_closes scaleX scaleY offsetX offsetY contour).
    now apply trim_pathText.
  - apply closes_per_ring.
Qed.

(** * Contour styling *)

Lemma contour_t_position count idx :
  (idx < count)%nat -> contour_t count idx = Spec.position count idx.
Proof.
  intro Hidx. unfold contour_t, Spec.position, or_value, falsy, Falsy_Z.
  destruct (Nat.eqb_spec count 1) as [->|Hc].
  - replace idx with 0%nat by lia. simpl. lra.
  - destruct (Z.eqb_spec (Z.of_nat count - 1) 0) as [H|H]; [lia|].
    rewrite minus_IZR, <- INR_IZR_INZ. reflexivity.
Qed.

Lemma contour_op_opacityAt opacityMin opacityMax t :
  contour_op opacityMin opacityMax t = Spec.opacityAt opacityMin opacityMax t.
Proof. unfold contour_op, Spec.opacityAt. ring. Qed.

(** [forEach] with a body that appends a piece computed from the element
    and its index. *)
Lemma forEach_from_pieces {A} (g : nat -> A -> string)
    (body : A -> nat -> string -> string) (bound : nat) :
  forall xs idx,
    (idx + length xs <= bound)%nat ->
    (forall x i s, (i < bound)%nat -> body x i s = (s ++ g i x)%string) ->
    forall s,
      forEach_from xs idx body s
      = (s ++ String.concat "" (map (fun p => g (fst p) (snd p))
                                  (combine (seq idx (length xs)) xs)))%string.
Proof.
  induction xs as [|x xs IH]; intros idx Hb Hbody s.
  - simpl. now rewrite append_nil_r.
  - cbn [forEach_from length seq combine map]. cbn [length] in Hb.
    rewrite IH, Hbody, concat_nil_cons, append_assoc by (auto; lia).
    reflexivity.
Qed.

(** C7: the composer appends one path element per contour, in order; the
    contour at [idx] among [n] is styled with t = idx / (n - 1) (0 when
    n = 1), stroke width strokeMin + (strokeMax - strokeMin) * t and stroke
    opacity opacityMax - (opacityMax - opacityMin) * t, which is opacityMax
    at t = 0 and opacityMin at t = 1. *)
Theorem contour_styling (toFixed : R -> nat -> string) (Number_toString : R -> string)
    (s : Settings) (sx sy ox oy : R) (contourData : list Contour) (svg : string) :
  let n := length contourData in
  renderContours toFixed Number_toString s sx sy ox oy contourData svg
  = (svg ++ String.concat ""
       (map (fun p =>
               let t := Spec.position n (fst p) in
               Spec.pathElement Number_toString
                 (contourToPath toFixed (snd p) sx sy ox oy) (s_strokeColor s)
                 (Spec.widthAt (s_strokeMin s) (s_strokeMax s) t)
                 (Spec.opacityAt (s_opacityMin s) (s_opacityMax s) t))
          (combine (seq 0 n) contourData)))%string
  /\ (forall idx, (idx < n)%nat ->
        contour_t n idx = (if Nat.eqb n 1 then 0 else INR idx / (INR n - 1)))
  /\ (forall t, contour_sw (s_strokeMin s) (s_strokeMax s) t
                = s_strokeMin s + (s_strokeMax s - s_strokeMin s) * t)
  /\ (forall t, contour_op (s_opacityMin s) (s_opacityMax s) t
                = s_opacityMax s - (s_opacityMax s - s_opacityMin s) * t)
  /\ contour_op (s_opacityMin s) (s_opacityMax s) 0 = s_opacityMax s
  /\ contour_op (s_opacityMin s) (s_opacityMax s) 1 = s_opacityMin s.
Proof.
  intros n. split; [|split; [|split; [|split; [|split]]]].
  - unfold renderContours, forEach.
    apply (forEach_from_pieces
             (fun idx c =>
                Spec.pathElement Number_toString
                  (contourToPath toFixed c sx sy ox oy) (s_strokeColor s)
                  (Spec.widthAt (s_strokeMin s) (s_strokeMax s) (Spec.position n idx))
                  (Spec.opacityAt (s_opacityMin s) (s_opacityMax s) (Spec.position n idx)))
             _ n); [fold n; lia|].
    intros c i svg' Hi. fold n.
    rewrite contour_t_position, contour_op_opacityAt by exact Hi.
    reflexivity.
  - intros idx Hidx. now apply contour_t_position.
  - reflexivity.
  - intro t. unfold contour_op. ring.
  - unfold contour_op. ring.
  - unfold contour_op. ring.
Qed.

(** * The composer *)

(** The run with its calls logged ends as the plain run does. *)
Lemma generateWavelineSvg_calls_result (toFixed : R -> nat -> string)
    (Number_toString : R -> string) d3 Math_random options :
  snd (generateWavelineSvg_calls toFixed Number_toString d3 Math_random options)
  = generateWavelineSvg toFixed Number_toString d3 Math_random options.
Proof.
  unfold generateWavelineSvg_calls, generateWavelineSvg.
  destruct d3 as [|e| |e|contours|contours]; try reflexivity;
    destruct (terrain (defaults Math_random options)) as [field levels];
    try reflexivity.
  destruct (contours _ _ _ _); reflexivity.
Qed.

Lemma for_lt_log {A} (x : A) start stop (log : list A) :
  for_lt start stop (fun _ log => log ++ [x]) log
  = log ++ repeat x (Z.to_nat (stop - start)).
Proof.
  unfold for_lt. generalize (Z.to_nat (stop - start)) as n. intro n.
  revert start log. induction n as [|n IH]; intros start log.
  - simpl. now rewrite app_nil_r.
  - cbn [for_count repeat]. rewrite IH, <- app_assoc. reflexivity.
Qed.

Lemma forEach_log {A B} (x : B) (xs : list A) (log : list B) :
  forEach xs (fun _ _ log => log ++ [x]) log = log ++ repeat x (length xs).
Proof.
  unfold forEach. generalize 0%nat as idx. revert log.
  induction xs as [|y ys IH]; intros log idx.
  - simpl. now rewrite app_nil_r.
  - cbn [forEach_from length repeat]. rewrite IH, <- app_assoc. reflexivity.
Qed.

(** The calls of a run on a [d3] that passes the check of lines 159-161: the
    field and the thresholds first, then d3-contour if it can be called,
    then one [contourToPath] per contour. *)
Lemma generateWavelineSvg_calls_planned (toFixed : R -> nat -> string)
    (Number_toString : R -> string) d3 Math_random options :
  d3 <> d3_undefined -> d3 <> d3_no_contours ->
  (forall TypeError, d3 <> d3_null TypeError) ->
  exists later,
    fst (generateWavelineSvg_calls toFixed Number_toString d3 Math_random options)
    = match Options.seed options with
      | Some _ => []
      | None => [call_Math_random]
      end
      ++ [call_generateField; call_Math_min; call_Math_max]
      ++ repeat call_applyBias (Z.to_nat (s_density (defaults Math_random options)))
      ++ later.
Proof.
  intros H1 H2 H3.
  set (before := match Options.seed options with
                 | Some _ => []
                 | None => [call_Math_random]
                 end).
  assert (Hb : (match Options.seed options with
                | Some _ => []
                | None => [] ++ [call_Math_random]
                end) = before)
    by (unfold before; destruct (Options.seed options); reflexivity).
  unfold generateWavelineSvg_calls. cbv zeta. rewrite Hb.
  destruct d3 as [|e| |e|contours|contours];
    [contradiction|exfalso; apply (H3 e); reflexivity|contradiction| | |];
    destruct (terrain (defaults Math_random options)) as [field levels];
    rewrite for_lt_log, <- !app_assoc; cbn [app];
    replace (s_density (defaults Math_random options) + 1 - 1)%Z
      with (s_density (defaults Math_random options)) by lia.
  - exists []. now rewrite app_nil_r.
  - rewrite forEach_log. cbn [fst].
    repeat (rewrite <- ?app_assoc; cbn [app]). eexists. reflexivity.
  - destruct (contours _ _ _ _) as [contourData|message]; cbn [fst].
    + rewrite forEach_log.
      repeat (rewrite <- ?app_assoc; cbn [app]). eexists. reflexivity.
    + repeat (rewrite <- ?app_assoc; cbn [app]). eexists. reflexivity.
Qed.



(** C9: two runs with the same seed and the same gridWidth, gridHeight,
    freq, amplitude, density and bias options compute the same field and
    the same thresholds, whatever their other options are. *)
Theorem terrain_ignores_presentation (o1 o2 : Options.t) (r1 r2 : R) (seed : Z) :
  Options.seed o1 = Some seed ->
  Options.seed o2 = Some seed ->
  Options.gridWidth o1 = Options.gridWidth o2 ->
  Options.gridHeight o1 = Options.gridHeight o2 ->
  Options.freq o1 = Options.freq o2 ->
  Options.amplitude o1 = Options.amplitude o2 ->
  Options.density o1 = Options.density o2 ->
  Options.bias o1 = Options.bias o2 ->
  terrain (defaults r1 o1) = terrain (defaults r2 o2).
Proof.
  intros Hs1 Hs2 Hgw Hgh Hf Ha Hd Hb.
  unfold terrain, defaults. cbn.
  rewrite Hs1, Hs2, Hgw, Hgh, Hf, Ha, Hd, Hb. reflexivity.
Qed.

Lemma falsy_R_0 : falsy (0 : R) = true.
Proof. unfold falsy, Falsy_R. destruct (Req_dec_T 0 0); [reflexivity|lra]. Qed.

Lemma or_else_absent_R v (d : R) : Spec.absent_or v 0 -> v ||| d = d.
Proof.
  intros [-> | ->]; [reflexivity|]. unfold or_else. now rewrite falsy_R_0.
Qed.

Lemma or_else_absent_Z v (d : Z) : Spec.absent_or v 0%Z -> v ||| d = d.
Proof. intros [-> | ->]; reflexivity. Qed.

Lemma or_else_absent_string v (d : string) :
  Spec.absent_or v EmptyString -> v ||| d = d.
Proof. intros [-> | ->]; reflexivity. Qed.

(** X23: for width, height, gridWidth, gridHeight, density, freq,
    amplitude, bias, strokeColor and backgroundColor a zero (or empty
    string) is replaced by the library's default like an absent option; strokeMin,
    strokeMax, opacityMin, opacityMax and seed keep any supplied value,
    zero included, and take their default only when absent.  With
    density 0 ten thresholds are planned, and with d3-contour loaded the
    call returns a document. *)
Theorem defaulting_asymmetry (toFixed : R -> nat -> string)
    (Number_toString : R -> string) (Math_random : R) (options : Options.t) :
  let s := defaults Math_random options in
  (Spec.absent_or (Options.width options) 0 -> s_width s = 100)
  /\ (Spec.absent_or (Options.height options) 0 -> s_height s = 56.25)
  /\ (Spec.absent_or (Options.gridWidth options) 0%Z -> s_gridWidth s = 160%Z)
  /\ (Spec.absent_or (Options.gridHeight options) 0%Z -> s_gridHeight s = 90%Z)
  /\ (Spec.absent_or (Options.density options) 0%Z -> s_density s = 10%Z)
  /\ (Spec.absent_or (Options.freq options) 0 -> s_freq s = 5)
  /\ (Spec.absent_or (Options.amplitude options) 0 -> s_amplitude s = 1)
  /\ (Spec.absent_or (Options.bias options) 0 -> s_bias s = 0)
  /\ (Spec.absent_or (Options.strokeColor options) EmptyString
      -> s_strokeColor s = "#888888"%string)
  /\ (Spec.absent_or (Options.backgroundColor options) EmptyString
      -> s_bgColor s = "transparent"%string)
  /\ s_strokeMin s = match Options.strokeMin options with Some v => v | None => 0.16 end
  /\ s_strokeMax s = match Options.strokeMax options with Some v => v | None => 0.26 end
  /\ s_opacityMin s = match Options.opacityMin options with Some v => v | None => 0.5 end
  /\ s_opacityMax s = match Options.opacityMax options with Some v => v | None => 1 end
  /\ s_seed s = match Options.seed options with
                | Some v => v
                | None => Math_floor (Math_random * 1e9)
                end
  /\ (Options.density options = Some 0%Z -> length (snd (terrain s)) = 10%nat)
  /\ (forall contours, exists svg,
        generateWavelineSvg toFixed Number_toString (d3_contour contours)
          Math_random options = Return svg).
Proof.
  intro s.
  assert (Hreturn : forall contours, exists svg,
             generateWavelineSvg toFixed Number_toString (d3_contour contours)
               Math_random options = Return svg).
  { intro contours. unfold generateWavelineSvg. fold s.
    destruct (terrain s) as [field levels]. eexists. reflexivity. }
  revert Hreturn. generalize (generateWavelineSvg toFixed Number_toString).
  intros generate Hreturn. unfold s, defaults. cbn.
  repeat match goal with |- _ /\ _ => split end;
    try exact Hreturn;
    try (intro H; first [rewrite (or_else_absent_R _ _ H)
                        | rewrite (or_else_absent_Z _ _ H)
                        | rewrite (or_else_absent_string _ _ H)];
         try reflexivity; lra).
  - destruct (Options.strokeMin options); reflexivity.
  - destruct (Options.strokeMax options); reflexivity.
  - destruct (Options.opacityMin options); reflexivity.
  - destruct (Options.opacityMax options); [reflexivity|cbn; lra].
  - destruct (Options.seed options); reflexivity.
  - intros ->. unfold terrain. cbn [snd s_density s_bias].
    rewrite thresholds_map, length_map, zrange_length. reflexivity.
Qed.

(** C10: an absent or empty strokeColor is replaced by '#888888', which is
    not the default that the README documents, '#d4d4d4'. *)
Theorem strokeColor_default_undocumented (Math_random : R) :
  s_strokeColor (defaults Math_random Options.empty) = "#888888"%string
  /\ s_strokeColor (defaults Math_random optionsZero) = "#888888"%string
  /\ "#888888"%string <> Spec.README_strokeColor.
Proof. repeat split. discriminate. Qed.

(** C4: the clip identifier is computed from the seed alone, and the seeds
    0 and 999983, both in [0, 2^32 - 1], get the same identifier. *)
Theorem clipId_collision (r1 r2 : R) :
  clipId (s_seed (defaults r1 (seedOnly 0))) = "wlbg-0"%string
  /\ clipId (s_seed (defaults r2 (seedOnly 999983))) = "wlbg-0"%string
  /\ (forall seed, (0 <= seed)%Z -> clipId (seed + 999983) = clipId seed).
Proof.
  split; [reflexivity|]. split; [reflexivity|].
  intros seed Hseed. unfold clipId. do 2 f_equal.
  rewrite !Z.rem_mod_nonneg by lia.
  rewrite <- (Z.mul_1_l 999983) at 1. apply Z.mod_add. lia.
Qed.

(** * Instances *)

(** The generator seeded with 12345, before any call. *)
Lemma mulberry32_refines_Mulberry32_witness :
  ToUint32 (seed_var (rnd_after 0 (mulberry32 12345))) = Mulberry32.state 12345 0
  /\ fst (mulberry32_bits (rnd_after 0 (mulberry32 12345))) = Mulberry32.output 12345 0
  /\ (0 <= Mulberry32.output 12345 0 < 2 ^ 32)%Z
  /\ rnd_nth (mulberry32 12345) 0 = IZR (Mulberry32.output 12345 0) / 2 ^ 32
  /\ 0 <= rnd_nth (mulberry32 12345) 0 < 1.
Proof. apply (mulberry32_refines_Mulberry32 12345 0); simpl; lia. Defined.

(** A 3 x 2 grid at the default frequency and amplitude. *)
Lemma generateField_row_major_witness :
  let g := mulberry32 12345 in
  let field := generateField 3 2 5 1 12345 in
  snd (generateField_run 3 2 5 1 12345) = rnd_after 3 g
  /\ (forall n, 0 <= Spec.phase g n < 2 * PI)
  /\ length field = Z.to_nat (3 * 2)
  /\ forall i j, (0 <= i < 3)%Z -> (0 <= j < 2)%Z ->
       nth (Z.to_nat (j * 3 + i)) field 0
       = Spec.cell 3 2 5 1 (Spec.phase g 0) (Spec.phase g 1) (Spec.phase g 2) i j.
Proof. apply (generateField_row_major 3 2 5 1 12345); lia. Defined.

Lemma Math_min_pair a b : a <= b -> Math_min [a; b] = a.
Proof. intro H. simpl. now apply Rmin_left. Qed.

Lemma Math_max_pair a b : a <= b -> Math_max [a; b] = b.
Proof. intro H. simpl. now apply Rmax_right. Qed.

(** Three thresholds over a field with range [0, 1], bias 1/2. *)
Lemma thresholds_formula_witness :
  let min := Math_min [0; 1] in
  let max := Math_max [0; 1] in
  let levels := thresholds [0; 1] 3 (1 / 2) in
  length levels = Z.to_nat 3
  /\ forall k, (1 <= k <= 3)%Z ->
       nth (Z.to_nat (k - 1)) levels 0
       = min + Spec.biasCurve (1 / 2) (IZR k / IZR (3 + 1)) * (max - min).
Proof. apply (thresholds_formula [0; 1] 3 (1 / 2)); [discriminate|lia]. Defined.

Lemma thresholds_increasing_interior_witness :
  let levels := thresholds [0; 1] 3 (1 / 2) in
  StronglySorted Rlt levels
  /\ Forall (fun t => Math_min [0; 1] < t < Math_max [0; 1]) levels.
Proof.
  apply (thresholds_increasing_interior [0; 1] 3 (1 / 2)).
  - rewrite Math_min_pair, Math_max_pair by lra. lra.
  - lia.
  - lra.
Defined.

Lemma terrain_ignores_presentation_witness :
  terrain (defaults 0 optionsA) = terrain (defaults (1 / 2) optionsB).
Proof.
  apply (terrain_ignores_presentation optionsA optionsB 0 (1 / 2) 12345); reflexivity.
Defined.

(** * Values on small inputs *)

(** The first three words drawn from seed 0, and from the largest seed. *)
Example mulberry32_seed_0 :
  map (Mulberry32.output 0) [0; 1; 2]%nat = [1144304738; 1416247; 958946056]%Z.
Proof. vm_compute. reflexivity. Qed.

Example mulberry32_seed_max :
  fst (mulberry32_bits (mulberry32 4294967295)) = 3850105811%Z.
Proof. vm_compute. reflexivity. Qed.

(** A polygon with a triangle and a one-point ring, and a polygon with an
    empty ring; the coordinates are printed as [N]. *)
Example contourToPath_rings :
  contourToPath (fun _ _ => "N"%string)
    {| coordinates := [[[(0, 0); (1, 0); (1, 1)]; [(2, 2)]]; [[]]] |} 1 1 0 0
  = "M N N L N N L N N Z M N N Z Z"%string.
Proof. reflexivity. Qed.

Example clipId_values :
  clipId 12345 = "wlbg-12345"%string /\ clipId 4294967295 = "wlbg-40310"%string.
Proof. split; reflexivity. Qed.

(** Two thresholds over the range [0, 3] without bias. *)
Example thresholds_linear : thresholds [0; 3] 2 0 = [1; 2].
Proof.
  rewrite thresholds_map, Math_min_pair, Math_max_pair by lra.
  change (zrange 1 (Z.to_nat 2)) with [1; 2]%Z. cbn [map].
  rewrite !applyBias_zero. simpl IZR. f_equal; [|f_equal]; lra.
Qed.

(** Explicit zeros: density, amplitude and strokeColor take their defaults,
    strokeMin and the seed keep the zero. *)
Example defaults_zero :
  let s := defaults (1 / 2) optionsZero in
  s_density s = 10%Z /\ s_amplitude s = 1 /\ s_strokeColor s = "#888888"%string
  /\ s_strokeMin s = 0 /\ s_seed s = 0%Z.
Proof.
  cbv zeta. unfold defaults, optionsZero. cbn [s_density s_amplitude s_strokeColor
    s_strokeMin s_seed Options.density Options.amplitude Options.strokeColor
    Options.strokeMin Options.seed].
  repeat split; try reflexivity.
  rewrite or_else_absent_R by (now right). lra.
Qed.

(** The first number drawn from seed 0. *)
Example rnd_seed_0 : rnd_nth (mulberry32 0) 0 = 1144304738 / 4294967296.
Proof.
  unfold rnd_nth. rewrite mulberry32_call_fst. cbn [rnd_after].
  replace (fst (mulberry32_bits (mulberry32 0))) with 1144304738%Z
    by (vm_compute; reflexivity).
  reflexivity.
Qed.

(** [trim] drops the white space at both ends only. *)
Example trim_ends : trim "  M 1 2 Z  "%string = "M 1 2 Z"%string.
Proof. reflexivity. Qed.

(** * Further properties of the field *)

Lemma cell_bound gridW gridH freq amplitude p1 p2 p3 i j :
  Rabs (Spec.cell gridW gridH freq amplitude p1 p2 p3 i j) <= 3 * Rabs amplitude.
Proof.
  unfold Spec.cell. cbv zeta. rewrite Rabs_mult, (Rmult_comm 3).
  apply Rmult_le_compat_l; [apply Rabs_pos|].
  match goal with
  | |- Rabs (sin ?a + sin ?b + _ * sin ?c + _ * sin ?d) <= _ =>
      pose proof (SIN_bound a); pose proof (SIN_bound b);
      pose proof (SIN_bound c); pose proof (SIN_bound d)
  end.
  apply Rabs_le. lra.
Qed.

Lemma generateField_rows gridW gridH freq amplitude seed :
  let g := mulberry32 (ToUint32 seed) in
  generateField gridW gridH freq amplitude seed
  = flat_map
      (fun j => map (fun i => Spec.cell gridW gridH freq amplitude
                                (Spec.phase g 0) (Spec.phase g 1) (Spec.phase g 2) i j)
                  (zrange 0 (Z.to_nat gridW)))
      (zrange 0 (Z.to_nat gridH)).
Proof.
  intro g. unfold generateField.
  pose proof (generateField_run_rows gridW gridH freq amplitude seed) as H.
  cbv zeta in H. rewrite H. reflexivity.
Qed.

(** X1: for every grid size, also a zero or negative one, the field has
    max(gridW, 0) * max(gridH, 0) values, and every value lies within
    3 * |amplitude| of zero (the four sines weigh 1 + 1 + 0.6 + 0.4). *)
Theorem generateField_size_and_range (gridW gridH : Z) (freq amplitude : R) (seed : Z) :
  let field := generateField gridW gridH freq amplitude seed in
  length field = (Z.to_nat gridW * Z.to_nat gridH)%nat
  /\ Forall (fun v => - (3 * Rabs amplitude) <= v <= 3 * Rabs amplitude) field.
Proof.
  intro field. unfold field. rewrite generateField_rows. split.
  - rewrite (flat_map_rows_length _ (Z.to_nat gridW)).
    + rewrite zrange_length. lia.
    + intro j. now rewrite length_map, zrange_length.
  - apply Forall_forall. intros v Hv. apply in_flat_map in Hv.
    destruct Hv as (j & _ & Hv). apply in_map_iff in Hv. destruct Hv as (i & <- & _).
    pose proof (cell_bound gridW gridH freq amplitude
                  (Spec.phase (mulberry32 (ToUint32 seed)) 0)
                  (Spec.phase (mulberry32 (ToUint32 seed)) 1)
                  (Spec.phase (mulberry32 (ToUint32 seed)) 2) i j) as Hb.
    revert Hb. unfold Rabs. destruct (Rcase_abs _); lra.
Qed.

(** X2: the field depends on the seed through its low 32 bits only: adding
    a multiple of 2^32 to the seed, or reducing it modulo 2^32 (as for a
    negative seed), leaves the field unchanged. *)
Theorem generateField_seed_low_bits (gridW gridH : Z) (freq amplitude : R) (seed k : Z) :
  generateField gridW gridH freq amplitude (seed + k * 4294967296)
  = generateField gridW gridH freq amplitude seed
  /\ generateField gridW gridH freq amplitude (seed mod 4294967296)
     = generateField gridW gridH freq amplitude seed.
Proof.
  rewrite !generateField_rows. cbv zeta. split.
  - replace (ToUint32 (seed + k * 4294967296)) with (ToUint32 seed); [reflexivity|].
    unfold ToUint32, two32. now rewrite Z.mod_add by lia.
  - change (seed mod 4294967296)%Z with (ToUint32 seed). now rewrite ToUint32_idem.
Qed.

Lemma cell_amplitude gridW gridH freq amplitude p1 p2 p3 i j :
  Spec.cell gridW gridH freq amplitude p1 p2 p3 i j
  = amplitude * Spec.cell gridW gridH freq 1 p1 p2 p3 i j.
Proof. unfold Spec.cell. cbv zeta. ring. Qed.

Lemma generateField_amplitude gridW gridH freq amplitude seed :
  generateField gridW gridH freq amplitude seed
  = map (Rmult amplitude) (generateField gridW gridH freq 1 seed).
Proof.
  rewrite !generateField_rows. cbv zeta.
  induction (zrange 0 (Z.to_nat gridH)) as [|j js IH]; [reflexivity|].
  cbn [flat_map]. rewrite map_app, IH, map_map. f_equal.
  apply map_ext. intro i. apply cell_amplitude.
Qed.

Lemma fold_left_Rmin_scale a xs x :
  0 <= a -> fold_left Rmin (map (Rmult a) xs) (a * x) = a * fold_left Rmin xs x.
Proof.
  intro Ha. revert x. induction xs as [|y xs IH]; intro x; [reflexivity|].
  cbn [map fold_left]. rewrite <- IH. f_equal.
  unfold Rmin. destruct (Rle_dec (a * x) (a * y)), (Rle_dec x y); try reflexivity.
  - assert (a * y <= a * x) by nra. assert (a * y = a * x) by lra. lra.
  - exfalso. apply n. now apply Rmult_le_compat_l.
Qed.

Lemma fold_left_Rmax_scale a xs x :
  0 <= a -> fold_left Rmax (map (Rmult a) xs) (a * x) = a * fold_left Rmax xs x.
Proof.
  intro Ha. revert x. induction xs as [|y xs IH]; intro x; [reflexivity|].
  cbn [map fold_left]. rewrite <- IH. f_equal.
  unfold Rmax. destruct (Rle_dec (a * x) (a * y)), (Rle_dec x y); try reflexivity.
  - assert (a * y <= a * x) by nra. lra.
  - exfalso. apply n. now apply Rmult_le_compat_l.
Qed.

Lemma Math_min_scale a xs : 0 <= a -> Math_min (map (Rmult a) xs) = a * Math_min xs.
Proof.
  intro Ha. destruct xs as [|x xs]; simpl; [lra|]. now apply fold_left_Rmin_scale.
Qed.

Lemma Math_max_scale a xs : 0 <= a -> Math_max (map (Rmult a) xs) = a * Math_max xs.
Proof.
  intro Ha. destruct xs as [|x xs]; simpl; [lra|]. now apply fold_left_Rmax_scale.
Qed.

(** X3: on a grid of at least one cell, the field at amplitude a is a times
    the field at amplitude 1, and for a > 0 so are the thresholds: the
    amplitude rescales what is handed to d3-contour and moves no threshold
    relative to the field. *)
Theorem amplitude_scales_terrain (gridW gridH : Z) (freq amplitude : R) (seed density : Z)
    (bias : R) :
  (1 <= gridW)%Z -> (1 <= gridH)%Z -> 0 < amplitude ->
  let unit := generateField gridW gridH freq 1 seed in
  let field := generateField gridW gridH freq amplitude seed in
  field = map (Rmult amplitude) unit
  /\ thresholds field density bias = map (Rmult amplitude) (thresholds unit density bias).
Proof.
  intros _ _ Ha unit field.
  assert (Hf : field = map (Rmult amplitude) unit) by apply generateField_amplitude.
  split; [exact Hf|]. rewrite Hf, !thresholds_map, map_map.
  rewrite Math_min_scale, Math_max_scale by lra.
  apply map_ext. intro k. ring.
Qed.

(** * Further properties of the bias and the thresholds *)

Lemma Math_pow_zero_base y : y <> 0 -> Math_pow 0 y = 0.
Proof.
  intro Hy. unfold Math_pow. destruct (Rlt_dec 0 0); [lra|].
  destruct (Req_dec_T y 0); [contradiction|reflexivity].
Qed.

Lemma Math_pow_one_base y : Math_pow 1 y = 1.
Proof.
  rewrite Math_pow_pos_base by lra. unfold Rpower.
  rewrite ln_1, Rmult_0_r. apply exp_0.
Qed.

(** X4: whatever the bias, [applyBias] keeps a position of the unit
    interval in the unit interval, and maps 0 to 0 and 1 to 1. *)
Theorem applyBias_unit_interval (u bias : R) :
  0 <= u <= 1 ->
  0 <= applyBias u bias <= 1
  /\ applyBias 0 bias = 0
  /\ applyBias 1 bias = 1.
Proof.
  intro Hu.
  assert (Hends : applyBias 0 bias = 0 /\ applyBias 1 bias = 1).
  { destruct (total_order_T bias 0) as [[Hneg|Hzero]|Hpos].
    - rewrite !applyBias_negative by lra.
      replace (1 - 0) with 1 by ring. replace (1 - 1) with 0 by ring.
      rewrite Math_pow_one_base, Math_pow_zero_base by lra. lra.
    - subst. rewrite !applyBias_zero. lra.
    - rewrite !applyBias_positive by lra.
      rewrite Math_pow_one_base, Math_pow_zero_base by lra. lra. }
  split; [|exact Hends]. destruct Hends as [H0 H1].
  destruct (Req_dec u 0) as [->|Hu0]; [lra|].
  destruct (Req_dec u 1) as [->|Hu1]; [lra|].
  assert (Hin : 0 < u < 1) by lra.
  rewrite applyBias_biasCurve by exact Hin.
  pose proof (biasCurve_unit bias u Hin). lra.
Qed.

(** Negating the bias mirrors the curve about the centre of the unit
    square. *)
Lemma applyBias_mirror u bias : applyBias u (- bias) = 1 - applyBias (1 - u) bias.
Proof.
  destruct (total_order_T bias 0) as [[Hneg|Hzero]|Hpos].
  - rewrite applyBias_positive, applyBias_negative by lra.
    replace (1 - (1 - u)) with u by ring. replace (1 + - bias) with (1 - bias) by ring.
    ring.
  - subst. rewrite Ropp_0, !applyBias_zero. ring.
  - rewrite applyBias_negative, applyBias_positive by lra.
    replace (1 - - bias) with (1 + bias) by ring. reflexivity.
Qed.

(** X6: negating the bias mirrors the thresholds about the middle of the
    range: the k-th threshold for -bias is min + max minus the k-th from
    the end for bias. *)
Theorem thresholds_mirror (field : list R) (density : Z) (bias : R) (k : Z) :
  field <> [] ->
  (1 <= k <= density)%Z ->
  nth (Z.to_nat (k - 1)) (thresholds field density (- bias)) 0
  = Math_min field + Math_max field
    - nth (Z.to_nat (density - k)) (thresholds field density bias) 0.
Proof.
  intros _ Hk. rewrite !thresholds_map.
  set (f := fun b (k : Z) => Math_min field
              + applyBias (IZR k / IZR (density + 1)) b * (Math_max field - Math_min field)).
  change (nth (Z.to_nat (k - 1)) (map (f (- bias)) (zrange 1 (Z.to_nat density))) 0
          = Math_min field + Math_max field
            - nth (Z.to_nat (density - k)) (map (f bias) (zrange 1 (Z.to_nat density))) 0).
  rewrite (nth_indep _ 0 (f (- bias) 0%Z)) by (rewrite length_map, zrange_length; lia).
  rewrite (nth_indep _ 0 (f bias 0%Z)) by (rewrite length_map, zrange_length; lia).
  rewrite !map_nth, !zrange_nth by lia.
  unfold f. rewrite applyBias_mirror.
  replace (IZR (1 + Z.of_nat (Z.to_nat (density - k))) / IZR (density + 1))
    with (1 - IZR (1 + Z.of_nat (Z.to_nat (k - 1))) / IZR (density + 1)).
  - ring.
  - assert (Hd : IZR (density + 1) <> 0) by (apply not_0_IZR; lia).
    replace (1 + Z.of_nat (Z.to_nat (density - k)))%Z with (density + 1 - k)%Z by lia.
    replace (1 + Z.of_nat (Z.to_nat (k - 1)))%Z with k by lia.
    rewrite minus_IZR. field. exact Hd.
Qed.

Lemma fold_left_Rmin_le xs x : fold_left Rmin xs x <= x.
Proof.
  revert x. induction xs as [|y xs IH]; intro x; simpl; [lra|].
  apply Rle_trans with (Rmin x y); [apply IH|apply Rmin_l].
Qed.

Lemma fold_left_Rmax_ge xs x : x <= fold_left Rmax xs x.
Proof.
  revert x. induction xs as [|y xs IH]; intro x; simpl; [lra|].
  apply Rle_trans with (Rmax x y); [apply Rmax_l|apply IH].
Qed.

Lemma Math_min_le_max xs : Math_min xs <= Math_max xs.
Proof.
  destruct xs as [|x xs]; simpl; [lra|].
  apply Rle_trans with x; [apply fold_left_Rmin_le|apply fold_left_Rmax_ge].
Qed.

(** X7: for a non-empty field and every density and bias there are
    max(density, 0) thresholds, none for a density of zero or less; over a
    flat field (minimum equal to maximum) every threshold is that value. *)
Theorem thresholds_count_and_flat (field : list R) (density : Z) (bias : R) :
  field <> [] ->
  let levels := thresholds field density bias in
  length levels = Z.to_nat density
  /\ ((density <= 0)%Z -> levels = [])
  /\ (Math_min field = Math_max field -> levels = repeat (Math_min field) (Z.to_nat density)).
Proof.
  intros _ levels. unfold levels. split; [|split].
  - now rewrite thresholds_map, length_map, zrange_length.
  - intro Hd. rewrite thresholds_map.
    replace (Z.to_nat density) with 0%nat by lia. reflexivity.
  - intro Heq. rewrite thresholds_map, Heq.
    rewrite <- (zrange_length 1 (Z.to_nat density)) at 2.
    induction (zrange 1 (Z.to_nat density)) as [|k ks IH]; [reflexivity|].
    cbn [map length repeat]. rewrite IH. f_equal. ring.
Qed.

(** * Further properties of the rendering *)

Lemma position_range n idx : (idx < n)%nat -> 0 <= Spec.position n idx <= 1.
Proof.
  intro Hidx. unfold Spec.position. destruct (Nat.eqb_spec n 1); [lra|].
  assert (Hn : 1 < INR n) by (apply (lt_INR 1); lia).
  assert (Hi : INR idx <= INR n - 1).
  { replace (INR n - 1) with (INR (n - 1)) by (rewrite minus_INR by lia; reflexivity).
    apply le_INR. lia. }
  pose proof (pos_INR idx). split.
  - apply Rmult_le_pos; [assumption|]. apply Rlt_le, Rinv_0_lt_compat. lra.
  - apply Rmult_le_reg_r with (INR n - 1); [lra|].
    unfold Rdiv. rewrite Rmult_assoc, Rinv_l by lra. lra.
Qed.

Lemma position_monotone n idx idx' :
  (idx <= idx')%nat -> (idx' < n)%nat -> Spec.position n idx <= Spec.position n idx'.
Proof.
  intros Hle Hlt. unfold Spec.position. destruct (Nat.eqb_spec n 1); [lra|].
  assert (Hn : 1 < INR n) by (apply (lt_INR 1); lia).
  apply Rmult_le_compat_r; [apply Rlt_le, Rinv_0_lt_compat; lra|].
  apply le_INR. exact Hle.
Qed.

(** X8: when 0 <= strokeMin <= strokeMax and 0 <= opacityMin <= opacityMax,
    the stroke width never decreases and the opacity never increases from
    one contour to a later one; no width is below strokeMin and no opacity
    below opacityMin; the first contour gets exactly strokeMin, and the
    last of two or more exactly opacityMin. *)
Theorem stroke_style_monotone (n idx idx' : nat)
    (strokeMin strokeMax opacityMin opacityMax : R) :
  (idx <= idx')%nat -> (idx' < n)%nat ->
  0 <= strokeMin <= strokeMax -> 0 <= opacityMin <= opacityMax ->
  let sw i := contour_sw strokeMin strokeMax (contour_t n i) in
  let op i := contour_op opacityMin opacityMax (contour_t n i) in
  strokeMin <= sw idx <= sw idx'
  /\ opacityMin <= op idx' <= op idx
  /\ sw 0%nat = strokeMin
  /\ ((2 <= n)%nat -> op (n - 1)%nat = opacityMin).
Proof.
  intros Hle Hlt Hs Ho sw op. unfold sw, op.
  rewrite !(contour_t_position n idx), !(contour_t_position n idx') by lia.
  rewrite (contour_t_position n 0) by lia.
  pose proof (position_range n idx ltac:(lia)) as Ht.
  pose proof (position_range n idx' Hlt) as Ht'.
  pose proof (position_monotone n idx idx' Hle Hlt) as Hm.
  unfold contour_sw, contour_op. repeat split; try nra.
  - unfold Spec.position. destruct (n =? 1)%nat; simpl; lra.
  - intro Hn. rewrite (contour_t_position n (n - 1)) by lia.
    unfold Spec.position. destruct (Nat.eqb_spec n 1); [lia|].
    rewrite minus_INR by lia. simpl INR.
    assert (1 < INR n) by (apply (lt_INR 1); lia).
    replace ((INR n - 1) / (INR n - 1)) with 1 by (field; lra). ring.
Qed.

(** With d3-contour loaded the document is made of an opening that depends
    on the settings only, the paths of the contours d3 returns for the
    terrain, mapped by [bleedMapping], and the closing tags. *)
Lemma generateWavelineSvg_return (toFixed : R -> nat -> string)
    (Number_toString : R -> string) contours Math_random options :
  exists opening,
    generateWavelineSvg toFixed Number_toString (d3_contour contours) Math_random options
    = let s := defaults Math_random options in
      let '(sx, sy, ox, oy) := bleedMapping s in
      Return (renderContours toFixed Number_toString s sx sy ox oy
                (contours (s_gridWidth s, s_gridHeight s) true
                   (snd (terrain s)) (fst (terrain s))) opening
              ++ "</g></svg>")%string.
Proof.
  unfold generateWavelineSvg, bleedMapping. cbv zeta.
  destruct (terrain (defaults Math_random options)) as [field levels] eqn:E.
  eexists. cbn [fst snd]. reflexivity.
Qed.

(** X9: on a grid of at least two columns and two rows the first grid
    point is drawn a tenth of the width left of and a tenth of the height
    above the viewBox, and the last one a tenth beyond its right and bottom
    edges: the grid covers the viewBox with a 10 % margin on every side. *)
Theorem bleed_covers_viewport (s : Settings) :
  (2 <= s_gridWidth s)%Z -> (2 <= s_gridHeight s)%Z ->
  mapPoint s (0, 0) = (- (s_width s / 10), - (s_height s / 10))
  /\ mapPoint s (IZR (s_gridWidth s - 1), IZR (s_gridHeight s - 1))
     = (s_width s + s_width s / 10, s_height s + s_height s / 10).
Proof.
  intros HW HH. unfold mapPoint, bleedMapping. cbv zeta. cbn [fst snd].
  assert (IZR (s_gridWidth s - 1) <> 0) by (apply not_0_IZR; lia).
  assert (IZR (s_gridHeight s - 1) <> 0) by (apply not_0_IZR; lia).
  replace 0.10 with (1 / 10) by lra.
  split; f_equal; field; assumption.
Qed.

(** X10: with a seed in the options the result of [generateWavelineSvg]
    does not depend on what [Math.random] returns: the same options give
    the same document, or the same error, on every call. *)
Theorem explicit_seed_ignores_Math_random (toFixed : R -> nat -> string)
    (Number_toString : R -> string) (d3 : D3) (options : Options.t) (seed : Z) (r1 r2 : R) :
  Options.seed options = Some seed ->
  generateWavelineSvg toFixed Number_toString d3 r1 options
  = generateWavelineSvg toFixed Number_toString d3 r2 options.
Proof.
  intro Hs. unfold generateWavelineSvg.
  replace (defaults r2 options) with (defaults r1 options); [reflexivity|].
  unfold defaults. rewrite Hs. reflexivity.
Qed.

(** X11: without a seed in the options, and [Math.random] in [0, 1), the
    seed is an integer from 0 to 999999999, which [seed >>> 0] in
    [generateField] leaves as it is. *)
Theorem automatic_seed_range (Math_random : R) (options : Options.t) :
  0 <= Math_random < 1 ->
  Options.seed options = None ->
  let seed := s_seed (defaults Math_random options) in
  (0 <= seed <= 999999999)%Z /\ ushr seed 0 = seed.
Proof.
  intros Hr Hs seed.
  assert (Hseed : seed = Math_floor (Math_random * 1e9)).
  { unfold seed, defaults. cbn [s_seed]. rewrite Hs. reflexivity. }
  assert (Hrange : (0 <= seed <= 999999999)%Z).
  { rewrite Hseed. unfold Math_floor.
    destruct (base_Int_part (Math_random * 1e9)) as [Hle Hgt].
    split.
    - apply Z.lt_succ_r, lt_IZR. rewrite succ_IZR. lra.
    - apply Z.lt_succ_r, lt_IZR. change (Z.succ 999999999) with 1000000000%Z. lra. }
  split; [exact Hrange|].
  unfold ushr. rewrite Z.shiftr_0_r. apply ToUint32_small. unfold two32. lia.
Qed.

Lemma Z_toString_inj a b : Z_toString a = Z_toString b -> a = b.
Proof.
  unfold Z_toString. intro H. apply DecimalZ.to_int_inj.
  assert (Hnn : forall z, Z.to_int z <> Decimal.Pos Decimal.Nil
                          /\ Z.to_int z <> Decimal.Neg Decimal.Nil).
  { intro z. split; intro Hz; pose proof (f_equal Z.of_int Hz) as Hz';
      rewrite DecimalZ.of_to in Hz'; subst z; discriminate Hz. }
  destruct (Hnn a) as [Ha1 Ha2]. destruct (Hnn b) as [Hb1 Hb2].
  pose proof (NilZero.isi _ Ha1 Ha2) as Ia. pose proof (NilZero.isi _ Hb1 Hb2) as Ib.
  rewrite H in Ia. congruence.
Qed.

(** X12: two seeds get the same clip identifier exactly when they leave the
    same remainder (of the sign of the seed) on division by 999983. *)
Theorem clipId_same_iff (seed1 seed2 : Z) :
  clipId seed1 = clipId seed2 <-> Z.rem seed1 999983 = Z.rem seed2 999983.
Proof.
  unfold clipId. split.
  - intro H. apply Z_toString_inj. simpl in H. now inversion H.
  - intros ->. reflexivity.
Qed.

(** * Further properties of the paths *)

Lemma flat_map_concat {A B} (f : A -> list B) (ls : list (list A)) :
  flat_map (flat_map f) ls = flat_map f (concat ls).
Proof.
  induction ls as [|l ls IH]; [reflexivity|].
  cbn [flat_map concat]. rewrite IH, flat_map_app. reflexivity.
Qed.

Lemma contourOps_rings sx sy ox oy contour :
  Spec.contourOps sx sy ox oy contour
  = flat_map (Spec.ringOps sx sy ox oy) (concat (coordinates contour)).
Proof. apply flat_map_concat. Qed.

Lemma ringOps_nonempty sx sy ox oy ring : Spec.ringOps sx sy ox oy ring <> [].
Proof. destruct ring; discriminate. Qed.

Lemma contourOps_nil_iff sx sy ox oy contour :
  Spec.contourOps sx sy ox oy contour = [] <-> concat (coordinates contour) = [].
Proof.
  rewrite contourOps_rings. destruct (concat (coordinates contour)) as [|r rs].
  - simpl. tauto.
  - cbn [flat_map]. split; [|discriminate]. intro H.
    apply app_eq_nil in H. destruct H as [H _]. now apply ringOps_nonempty in H.
Qed.

Lemma append_length (a b : string) :
  String.length (a ++ b) = (String.length a + String.length b)%nat.
Proof. induction a as [|c a IH]; simpl; [reflexivity|now rewrite IH]. Qed.

Lemma append_cancel_r (a b t : string) : (a ++ t = b ++ t)%string -> a = b.
Proof.
  revert b. induction a as [|c a IH]; intros [|d b] H.
  - reflexivity.
  - apply (f_equal String.length) in H. simpl in H. rewrite append_length in H. lia.
  - apply (f_equal String.length) in H. simpl in H. rewrite append_length in H. lia.
  - simpl in H. inversion H. subst. f_equal. now apply IH.
Qed.

Lemma contourToPath_trim (toFixed : R -> nat -> string) contour sx sy ox oy :
  contourToPath toFixed contour sx sy ox oy
  = trim (Spec.pathText toFixed (Spec.contourOps sx sy ox oy contour)).
Proof. unfold contourToPath. cbv zeta. f_equal. apply contour_text. Qed.

Lemma contourToPath_space (toFixed : R -> nat -> string) contour sx sy ox oy :
  concat (coordinates contour) <> [] ->
  (contourToPath toFixed contour sx sy ox oy ++ " ")%string
  = Spec.pathText toFixed (Spec.contourOps sx sy ox oy contour).
Proof.
  intro Hr. rewrite contourToPath_trim.
  destruct (contourOps_opens_closes sx sy ox oy contour) as [Hopen Hclose].
  apply trim_pathText; try assumption.
  intro Hnil. apply contourOps_nil_iff in Hnil. contradiction.
Qed.

(** X13: the path depends on the rings of a contour in their order only,
    not on how they are grouped into polygons. *)
Theorem contourToPath_rings_only (toFixed : R -> nat -> string)
    (c1 c2 : Contour) (sx sy ox oy : R) :
  concat (coordinates c1) = concat (coordinates c2) ->
  contourToPath toFixed c1 sx sy ox oy = contourToPath toFixed c2 sx sy ox oy.
Proof.
  intro H. rewrite !contourToPath_trim, !contourOps_rings, H. reflexivity.
Qed.

(** X14: the path is the empty string exactly when the contour has no ring
    (no polygon, or polygons without rings); a ring without points still
    gives [Z]. *)
Theorem contourToPath_empty_iff (toFixed : R -> nat -> string)
    (contour : Contour) (sx sy ox oy : R) :
  (contourToPath toFixed contour sx sy ox oy = EmptyString
   <-> concat (coordinates contour) = [])
  /\ contourToPath toFixed {| coordinates := [[[]]] |} sx sy ox oy = "Z"%string.
Proof.
  split; [|reflexivity]. split.
  - intro Hp. destruct (concat (coordinates contour)) as [|r rs] eqn:E; [reflexivity|].
    exfalso.
    assert (Hne : concat (coordinates contour) <> []) by (rewrite E; discriminate).
    pose proof (contourToPath_space toFixed contour sx sy ox oy Hne) as Hs.
    rewrite Hp in Hs.
    destruct (contourOps_opens_closes sx sy ox oy contour) as [_ [H0|(ops' & Hops)]].
    + apply contourOps_nil_iff in H0. contradiction.
    + rewrite Hops, pathText_app, pathText_single in Hs. cbn [Spec.opText] in Hs.
      apply (f_equal String.length) in Hs. rewrite !append_length in Hs.
      cbn [String.length] in Hs. lia.
  - intro H. rewrite contourToPath_trim.
    replace (Spec.contourOps sx sy ox oy contour) with (@nil Spec.PathOp);
      [reflexivity|].
    symmetry. now apply contourOps_nil_iff.
Qed.

(** X15: the path of a contour made of the polygons of two contours that
    both have a ring is the path of the first, a space, and the path of the
    second. *)
Theorem contourToPath_append (toFixed : R -> nat -> string)
    (c1 c2 : Contour) (sx sy ox oy : R) :
  concat (coordinates c1) <> [] ->
  concat (coordinates c2) <> [] ->
  contourToPath toFixed {| coordinates := coordinates c1 ++ coordinates c2 |} sx sy ox oy
  = (contourToPath toFixed c1 sx sy ox oy ++ " "
     ++ contourToPath toFixed c2 sx sy ox oy)%string.
Proof.
  intros H1 H2. apply append_cancel_r with (t := " "%string).
  rewrite contourToPath_space.
  - unfold Spec.contourOps. cbn [coordinates]. rewrite flat_map_app, pathText_app.
    fold (Spec.contourOps sx sy ox oy c1). fold (Spec.contourOps sx sy ox oy c2).
    rewrite <- !contourToPath_space by assumption.
    rewrite !append_assoc. reflexivity.
  - cbn [coordinates]. rewrite concat_app. intro H.
    apply app_eq_nil in H. destruct H. contradiction.
Qed.

(** * Attachment to the page *)

Lemma generate_loaded (toFixed : R -> nat -> string) (Number_toString : R -> string)
    contours Math_random options :
  exists svg,
    generateWavelineSvg toFixed Number_toString (d3_contour contours) Math_random options
    = Return svg.
Proof.
  unfold generateWavelineSvg.
  destruct (terrain (defaults Math_random options)). eexists. reflexivity.
Qed.

Lemma mode_dataUrl mode :
  mode = None \/ mode = Some EmptyString \/ mode = Some "dataUrl"%string ->
  mode ||| "dataUrl"%string = "dataUrl"%string.
Proof. intros [-> | [-> | ->]]; reflexivity. Qed.

Lemma mode_other m :
  m <> EmptyString -> m <> "dataUrl"%string ->
  String.eqb (Some m ||| "dataUrl"%string) "dataUrl" = false.
Proof.
  intros H0 H1. unfold or_else, falsy, Falsy_string.
  apply String.eqb_neq in H0. rewrite H0. now apply String.eqb_neq.
Qed.

(** X16: with d3-contour loaded and the mode absent, empty or 'dataUrl',
    the call succeeds, leaves the children of the element alone and makes
    exactly four assignments to its style, in this order: backgroundImage
    (the data URL of the encoded document), backgroundSize 'cover',
    backgroundPosition 'center' and backgroundRepeat 'no-repeat'. *)
Theorem apply_dataUrl (toFixed : R -> nat -> string)
    (Number_toString : R -> string) (encodeURIComponent : string -> string)
    (parseHTML : string -> list Node) (computedPosition : HTMLElement -> string)
    (TypeError : string) contours (Math_random : R) (element : HTMLElement)
    (options : Options.t) (mode : option string) :
  mode = None \/ mode = Some EmptyString \/ mode = Some "dataUrl"%string ->
  exists svgString,
    generateWavelineSvg toFixed Number_toString (d3_contour contours) Math_random options
    = Return svgString
    /\ let result := applyWavelineBackground toFixed Number_toString encodeURIComponent
                       parseHTML computedPosition TypeError (d3_contour contours)
                       Math_random element options mode in
       snd result = Return tt
       /\ childNodes (fst result) = childNodes element
       /\ localName (fst result) = localName element
       /\ style (fst result)
          = [("backgroundRepeat", "no-repeat");
             ("backgroundPosition", "center");
             ("backgroundSize", "cover");
             ("backgroundImage",
              "url(" ++ dq ++ "data:image/svg+xml;charset=UTF-8,"
              ++ encodeURIComponent svgString ++ dq ++ ")")]%string
            ++ style element.
Proof.
  intro Hmode.
  destruct (generate_loaded toFixed Number_toString contours Math_random options)
    as [svg Hsvg].
  exists svg. split; [exact Hsvg|].
  unfold applyWavelineBackground. rewrite Hsvg, (mode_dataUrl mode Hmode).
  cbn [String.eqb Ascii.eqb Bool.eqb fst snd setStyle style childNodes localName].
  repeat split.
Qed.

(** X17: with d3-contour loaded and any other mode (a non-empty string that
    is not 'dataUrl', 'inline' among them), the call either finds no [svg]
    element in the parsed markup and ends with the TypeError, the element
    untouched, or succeeds: the element gets one new first child, the
    wrapper holding the parsed markup with its first [svg] element styled,
    its other children follow in order, and its style changes only by
    [position: relative] when its computed position is static or empty. *)
Theorem apply_inline (toFixed : R -> nat -> string)
    (Number_toString : R -> string) (encodeURIComponent : string -> string)
    (parseHTML : string -> list Node) (computedPosition : HTMLElement -> string)
    (TypeError : string) contours (Math_random : R) (element : HTMLElement)
    (options : Options.t) (m : string) :
  m <> EmptyString -> m <> "dataUrl"%string ->
  exists svgString,
    generateWavelineSvg toFixed Number_toString (d3_contour contours) Math_random options
    = Return svgString
    /\ let result := applyWavelineBackground toFixed Number_toString encodeURIComponent
                       parseHTML computedPosition TypeError (d3_contour contours)
                       Math_random element options (Some m) in
       match updateFirst isSvg fillWrapper (parseHTML svgString) with
       | None => result = (element, Throw TypeError)
       | Some content =>
           snd result = Return tt
           /\ childNodes (fst result) = wrapperNode content :: childNodes element
           /\ localName (fst result) = localName element
           /\ style (fst result)
              = (if String.eqb (computedPosition element) "static"
                    || String.eqb (computedPosition element) ""
                 then setProperty (style element) "position" "relative"
                 else style element)
       end.
Proof.
  intros Hm0 Hm1.
  destruct (generate_loaded toFixed Number_toString contours Math_random options)
    as [svg Hsvg].
  exists svg. split; [exact Hsvg|].
  unfold applyWavelineBackground. rewrite Hsvg, (mode_other m Hm0 Hm1).
  destruct (updateFirst isSvg fillWrapper (parseHTML svg)) as [content|];
    [|reflexivity].
  cbn [fst snd].
  destruct (String.eqb (computedPosition element) "static"
            || String.eqb (computedPosition element) ""); repeat split.
Qed.

(** X18: whatever d3, the options and the mode, the call keeps the children
    the element had, in order, behind at most one new wrapper; a call that
    does not succeed leaves the element exactly as it was, and an error of
    [generateWavelineSvg] (d3-contour missing) is passed on unchanged. *)
Theorem apply_keeps_children (toFixed : R -> nat -> string)
    (Number_toString : R -> string) (encodeURIComponent : string -> string)
    (parseHTML : string -> list Node) (computedPosition : HTMLElement -> string)
    (TypeError : string) (d3 : D3) (Math_random : R) (element : HTMLElement)
    (options : Options.t) (mode : option string) :
  let result := applyWavelineBackground toFixed Number_toString encodeURIComponent
                  parseHTML computedPosition TypeError d3 Math_random element
                  options mode in
  (childNodes (fst result) = childNodes element
   \/ exists content, childNodes (fst result) = wrapperNode content :: childNodes element)
  /\ (snd result <> Return tt -> fst result = element)
  /\ (forall message,
        generateWavelineSvg toFixed Number_toString d3 Math_random options = Throw message ->
        result = (element, Throw message))
  /\ (d3 = d3_undefined \/ d3 = d3_no_contours ->
      result = (element, Throw "d3-contour is required. Load it before waveline-bg.js.")).
Proof.
  intro result. unfold result, applyWavelineBackground.
  split; [|split; [|split]].
  - destruct (generateWavelineSvg toFixed Number_toString d3 Math_random options)
      as [svg|message]; [|now left].
    destruct (String.eqb (mode ||| "dataUrl"%string) "dataUrl"); [now left|].
    destruct (updateFirst isSvg fillWrapper (parseHTML svg)) as [content|]; [|now left].
    right. exists content.
    destruct (String.eqb (computedPosition element) "static"
              || String.eqb (computedPosition element) ""); reflexivity.
  - destruct (generateWavelineSvg toFixed Number_toString d3 Math_random options)
      as [svg|message]; [|reflexivity].
    destruct (String.eqb (mode ||| "dataUrl"%string) "dataUrl").
    + intro H. now contradiction H.
    + destruct (updateFirst isSvg fillWrapper (parseHTML svg)) as [content|];
        [|reflexivity].
      intro H. now contradiction H.
  - intros message ->. reflexivity.
  - intros [-> | ->]; reflexivity.
Qed.

(** X19: when the style attribute of the wrapper reads as containing
    [position: absolute], [removeInlineWrapper] after a successful inline
    call removes exactly the wrapper: the element has its former children
    again, and the [position: relative] the call may have set stays. *)
Theorem removeInlineWrapper_after_apply (toFixed : R -> nat -> string)
    (Number_toString : R -> string) (encodeURIComponent : string -> string)
    (parseHTML : string -> list Node) (computedPosition : HTMLElement -> string)
    (TypeError : string) (cssText : Style -> string)
    (d3 : D3) (Math_random : R) (element : HTMLElement)
    (options : Options.t) (m : string) :
  includes (cssText (style newWrapper)) "position: absolute" = true ->
  m <> EmptyString -> m <> "dataUrl"%string ->
  let result := applyWavelineBackground toFixed Number_toString encodeURIComponent
                  parseHTML computedPosition TypeError d3 Math_random element
                  options (Some m) in
  snd result = Return tt ->
  childNodes (removeInlineWrapper cssText (fst result)) = childNodes element
  /\ style (removeInlineWrapper cssText (fst result)) = style (fst result).
Proof.
  intros Hcss Hm0 Hm1 result. unfold result, applyWavelineBackground.
  destruct (generateWavelineSvg toFixed Number_toString d3 Math_random options)
    as [svg|message]; [|discriminate].
  rewrite (mode_other m Hm0 Hm1).
  destruct (updateFirst isSvg fillWrapper (parseHTML svg)) as [content|];
    [|discriminate].
  intros _. cbn [fst]. unfold removeInlineWrapper, insertFirst. cbn [childNodes].
  cbn [removeFirst node localName style isInlineWrapper].
  change (localName newWrapper) with "div"%string.
  cbn [String.eqb Ascii.eqb Bool.eqb andb]. rewrite Hcss. cbn [childNodes style].
  destruct (String.eqb (computedPosition element) "static"
            || String.eqb (computedPosition element) ""); split; reflexivity.
Qed.

(** X20: on an element whose first child is a wrapper of an earlier call,
    removing it and applying inline again, as the demo page does, ends
    with one wrapper in front of the other children, not two. *)
Theorem regenerate_replaces_wrapper (toFixed : R -> nat -> string)
    (Number_toString : R -> string) (encodeURIComponent : string -> string)
    (parseHTML : string -> list Node) (computedPosition : HTMLElement -> string)
    (TypeError : string) (cssText : Style -> string)
    (d3 : D3) (Math_random : R) (element : HTMLElement) (old : Node) (rest : list Node)
    (options : Options.t) (m : string) :
  childNodes element = old :: rest ->
  isInlineWrapper cssText old = true ->
  m <> EmptyString -> m <> "dataUrl"%string ->
  let result := applyWavelineBackground toFixed Number_toString encodeURIComponent
                  parseHTML computedPosition TypeError d3 Math_random
                  (removeInlineWrapper cssText element) options (Some m) in
  snd result = Return tt ->
  exists content, childNodes (fst result) = wrapperNode content :: rest.
Proof.
  intros Hch Hold Hm0 Hm1 result.
  assert (Hrem : childNodes (removeInlineWrapper cssText element) = rest).
  { unfold removeInlineWrapper. rewrite Hch. cbn [removeFirst]. rewrite Hold.
    reflexivity. }
  unfold result, applyWavelineBackground.
  destruct (generateWavelineSvg toFixed Number_toString d3 Math_random options)
    as [svg|message]; [|discriminate].
  rewrite (mode_other m Hm0 Hm1).
  destruct (updateFirst isSvg fillWrapper (parseHTML svg)) as [content|];
    [|discriminate].
  intros _. exists content. cbn [fst]. unfold insertFirst. cbn [childNodes].
  f_equal. destruct (String.eqb _ "static" || String.eqb _ ""); exact Hrem.
Qed.

(** ** The regenerate button *)

Lemma apply_children (toFixed : R -> nat -> string)
    (Number_toString : R -> string) (encodeURIComponent : string -> string)
    (parseHTML : string -> list Node) (computedPosition : HTMLElement -> string)
    (TypeError : string) (d3 : D3) (Math_random : R) (element : HTMLElement)
    (options : Options.t) (m : string) :
  m <> EmptyString -> m <> "dataUrl"%string ->
  let result := applyWavelineBackground toFixed Number_toString encodeURIComponent
                  parseHTML computedPosition TypeError d3 Math_random element
                  options (Some m) in
  (snd result <> Return tt /\ fst result = element)
  \/ (snd result = Return tt
      /\ exists content, childNodes (fst result) = wrapperNode content :: childNodes element).
Proof.
  intros Hm0 Hm1 result. unfold result, applyWavelineBackground.
  destruct (generateWavelineSvg toFixed Number_toString d3 Math_random options)
    as [svg|message]; [|left; split; [discriminate|reflexivity]].
  rewrite (mode_other m Hm0 Hm1).
  destruct (updateFirst isSvg fillWrapper (parseHTML svg)) as [content|];
    [|left; split; [discriminate|reflexivity]].
  right. split; [reflexivity|]. exists content.
  destruct (String.eqb (computedPosition element) "static"
            || String.eqb (computedPosition element) ""); reflexivity.
Qed.

Lemma isInlineWrapper_wrapperNode (cssText : Style -> string) content :
  includes (cssText (style newWrapper)) "position: absolute" = true ->
  isInlineWrapper cssText (wrapperNode content) = true.
Proof.
  intro Hcss. unfold isInlineWrapper, wrapperNode.
  cbn [String.eqb Ascii.eqb Bool.eqb andb]. exact Hcss.
Qed.

(** X21: pressing the regenerate button of the second demo any number of
    times, whether the presses succeed or fail, never stacks wrappers: if
    the element starts with its own children [rest] (none of them, nor a
    descendant, matching the wrapper selector), possibly behind one
    wrapper, it ends with the same children behind at most one wrapper. *)
Theorem changeDemo2_one_wrapper (toFixed : R -> nat -> string)
    (Number_toString : R -> string) (encodeURIComponent : string -> string)
    (parseHTML : string -> list Node) (computedPosition : HTMLElement -> string)
    (TypeError : string) (cssText : Style -> string) (d3 : D3)
    (draws : list R) (demo2 : HTMLElement) (rest : list Node) :
  includes (cssText (style newWrapper)) "position: absolute" = true ->
  removeFirst (isInlineWrapper cssText) rest = None ->
  childNodes demo2 = rest
  \/ (exists content, childNodes demo2 = wrapperNode content :: rest) ->
  let after := pressChangeDemo2 toFixed Number_toString encodeURIComponent parseHTML
                 computedPosition TypeError cssText d3 draws demo2 in
  childNodes after = rest
  \/ (exists content, childNodes after = wrapperNode content :: rest).
Proof.
  intros Hcss Hrest. unfold pressChangeDemo2. revert demo2.
  induction draws as [|r draws IH]; intros demo2 Hinv; [exact Hinv|].
  cbn [fold_left]. apply IH.
  assert (Hrem : childNodes (removeInlineWrapper cssText demo2) = rest).
  { unfold removeInlineWrapper. destruct Hinv as [H|[content H]]; rewrite H.
    - rewrite Hrest. exact H.
    - cbn [removeFirst]. rewrite (isInlineWrapper_wrapperNode cssText content Hcss).
      reflexivity. }
  unfold changeDemo2.
  destruct (apply_children toFixed Number_toString encodeURIComponent parseHTML
              computedPosition TypeError d3 r (removeInlineWrapper cssText demo2)
              (demo2Options r) "inline" ltac:(discriminate) ltac:(discriminate))
    as [[_ H]|[_ [content H]]].
  - left. rewrite H. exact Hrem.
  - right. exists content. rewrite H, Hrem. reflexivity.
Qed.

(** * What the seed decides *)

Lemma generateField_same_low_bits gridW gridH freq amplitude seed1 seed2 :
  ToUint32 seed1 = ToUint32 seed2 ->
  generateField gridW gridH freq amplitude seed1
  = generateField gridW gridH freq amplitude seed2.
Proof. intro H. rewrite !generateField_rows. cbv zeta. rewrite H. reflexivity. Qed.

(** X22: the document depends on the seed only through its low 32 bits
    (the field) and its remainder on division by 999983 (the clip
    identifier): two seeds that agree on both give the same document for
    the same other options, as 0 and 2^32 * 999983 do. *)
Theorem document_seed_residues (toFixed : R -> nat -> string)
    (Number_toString : R -> string) (d3 : D3) (r1 r2 : R) (options : Options.t)
    (seed1 seed2 : Z) :
  (seed1 mod 4294967296 = seed2 mod 4294967296)%Z ->
  Z.rem seed1 999983 = Z.rem seed2 999983 ->
  generateWavelineSvg toFixed Number_toString d3 r1 (withSeed options seed1)
  = generateWavelineSvg toFixed Number_toString d3 r2 (withSeed options seed2).
Proof.
  intros Hlow Hrem. destruct d3 as [|e| |e|contours|contours]; try reflexivity;
  unfold generateWavelineSvg, composeSvg, renderContours, terrain, defaults, withSeed;
  cbn [s_width s_height s_gridWidth s_gridHeight s_density s_freq s_amplitude
       s_strokeMin s_strokeMax s_opacityMin s_opacityMax s_bias s_seed
       s_strokeColor s_bgColor
       Options.width Options.height Options.gridWidth Options.gridHeight
       Options.density Options.freq Options.amplitude Options.strokeMin
       Options.strokeMax Options.opacityMin Options.opacityMax Options.bias
       Options.seed Options.strokeColor Options.backgroundColor defined_or];
  unfold clipId; rewrite Hrem;
  rewrite (generateField_same_low_bits _ _ _ _ seed1 seed2 Hlow);
  reflexivity.
Qed.

(** * Instances of the further properties *)

(** An 8 x 4 grid at amplitude 2. *)
Lemma amplitude_scales_terrain_witness :
  let unit := generateField 8 4 5 1 12345 in
  let field := generateField 8 4 5 2 12345 in
  field = map (Rmult 2) unit
  /\ thresholds field 3 (1 / 2) = map (Rmult 2) (thresholds unit 3 (1 / 2)).
Proof. apply (amplitude_scales_terrain 8 4 5 2 12345 3 (1 / 2)); [lia|lia|lra]. Defined.

(** The first of three thresholds for bias -1/2 against the last for 1/2. *)
Lemma thresholds_mirror_witness :
  nth (Z.to_nat (1 - 1)) (thresholds [0; 1] 3 (- (1 / 2))) 0
  = Math_min [0; 1] + Math_max [0; 1]
    - nth (Z.to_nat (3 - 1)) (thresholds [0; 1] 3 (1 / 2)) 0.
Proof. apply (thresholds_mirror [0; 1] 3 (1 / 2) 1); [discriminate|lia]. Defined.

(** The default settings: a 160 x 90 grid on a 100 x 56.25 viewBox. *)
Lemma bleed_covers_viewport_witness :
  let s := defaults 0 Options.empty in
  mapPoint s (0, 0) = (- (s_width s / 10), - (s_height s / 10))
  /\ mapPoint s (IZR (s_gridWidth s - 1), IZR (s_gridHeight s - 1))
     = (s_width s + s_width s / 10, s_height s + s_height s / 10).
Proof.
  apply (bleed_covers_viewport (defaults 0 Options.empty)); cbn [defaults s_gridWidth
    s_gridHeight Options.gridWidth Options.gridHeight Options.empty]; vm_compute;
    discriminate.
Defined.

Lemma explicit_seed_ignores_Math_random_witness :
  generateWavelineSvg Stub.toFixed Stub.Number_toString Stub.d3 0 optionsA
  = generateWavelineSvg Stub.toFixed Stub.Number_toString Stub.d3 (1 / 2) optionsA.
Proof.
  apply (explicit_seed_ignores_Math_random Stub.toFixed Stub.Number_toString Stub.d3
           optionsA 12345 0 (1 / 2)).
  reflexivity.
Defined.

Lemma automatic_seed_range_witness :
  let seed := s_seed (defaults (1 / 2) Options.empty) in
  (0 <= seed <= 999999999)%Z /\ ushr seed 0 = seed.
Proof. apply (automatic_seed_range (1 / 2) Options.empty); [lra|reflexivity]. Defined.

(** Two rings in one polygon and the same rings in one polygon each. *)
Lemma contourToPath_rings_only_witness :
  contourToPath Stub.toFixed Stub.twoRings 1 1 0 0
  = contourToPath Stub.toFixed
      {| coordinates := [[[(0, 0); (1, 0)]]; [[(0, 1); (1, 1)]]] |} 1 1 0 0.
Proof.
  apply (contourToPath_rings_only Stub.toFixed Stub.twoRings
           {| coordinates := [[[(0, 0); (1, 0)]]; [[(0, 1); (1, 1)]]] |} 1 1 0 0).
  reflexivity.
Defined.

Lemma contourToPath_append_witness :
  contourToPath Stub.toFixed
    {| coordinates := coordinates Stub.segment ++ coordinates Stub.twoRings |} 1 1 0 0
  = (contourToPath Stub.toFixed Stub.segment 1 1 0 0 ++ " "
     ++ contourToPath Stub.toFixed Stub.twoRings 1 1 0 0)%string.
Proof.
  apply (contourToPath_append Stub.toFixed Stub.segment Stub.twoRings 1 1 0 0);
    discriminate.
Defined.

(** The mode 'inline' on the stub page. *)
Lemma apply_inline_witness :
  exists svgString,
    generateWavelineSvg Stub.toFixed Stub.Number_toString Stub.d3 0 optionsA
    = Return svgString
    /\ let result := applyWavelineBackground Stub.toFixed Stub.Number_toString
                       Stub.encodeURIComponent Stub.parseHTML Stub.computedPosition
                       "TypeError" Stub.d3 0 Stub.element optionsA (Some "inline"%string) in
       match updateFirst isSvg fillWrapper (Stub.parseHTML svgString) with
       | None => result = (Stub.element, Throw "TypeError"%string)
       | Some content =>
           snd result = Return tt
           /\ childNodes (fst result) = wrapperNode content :: childNodes Stub.element
           /\ localName (fst result) = localName Stub.element
           /\ style (fst result)
              = (if String.eqb (Stub.computedPosition Stub.element) "static"
                    || String.eqb (Stub.computedPosition Stub.element) ""
                 then setProperty (style Stub.element) "position" "relative"
                 else style Stub.element)
       end.
Proof.
  apply (apply_inline Stub.toFixed Stub.Number_toString Stub.encodeURIComponent
           Stub.parseHTML Stub.computedPosition "TypeError" (fun _ _ _ _ => []) 0
           Stub.element optionsA "inline"); discriminate.
Defined.

Lemma removeInlineWrapper_after_apply_witness :
  let result := applyWavelineBackground Stub.toFixed Stub.Number_toString
                  Stub.encodeURIComponent Stub.parseHTML Stub.computedPosition
                  "TypeError" Stub.d3 0 Stub.element optionsA (Some "inline"%string) in
  childNodes (removeInlineWrapper Stub.cssText (fst result)) = childNodes Stub.element
  /\ style (removeInlineWrapper Stub.cssText (fst result)) = style (fst result).
Proof.
  apply (removeInlineWrapper_after_apply Stub.toFixed Stub.Number_toString
           Stub.encodeURIComponent Stub.parseHTML Stub.computedPosition "TypeError"
           Stub.cssText Stub.d3 0 Stub.element optionsA "inline").
  - reflexivity.
  - discriminate.
  - discriminate.
  - reflexivity.
Defined.

Lemma regenerate_replaces_wrapper_witness :
  let result := applyWavelineBackground Stub.toFixed Stub.Number_toString
                  Stub.encodeURIComponent Stub.parseHTML Stub.computedPosition
                  "TypeError" Stub.d3 0
                  (removeInlineWrapper Stub.cssText Stub.decorated) optionsA
                  (Some "inline"%string) in
  exists content, childNodes (fst result) = wrapperNode content :: childNodes Stub.element.
Proof.
  apply (regenerate_replaces_wrapper Stub.toFixed Stub.Number_toString
           Stub.encodeURIComponent Stub.parseHTML Stub.computedPosition "TypeError"
           Stub.cssText Stub.d3 0 Stub.decorated (wrapperNode [Elem "svg" [] []])
           (childNodes Stub.element) optionsA "inline").
  - reflexivity.
  - reflexivity.
  - discriminate.
  - discriminate.
  - reflexivity.
Defined.

(** Two presses on the stub page. *)
Lemma changeDemo2_one_wrapper_witness :
  let after := pressChangeDemo2 Stub.toFixed Stub.Number_toString Stub.encodeURIComponent
                 Stub.parseHTML Stub.computedPosition "TypeError" Stub.cssText Stub.d3
                 [0; 1 / 2] Stub.element in
  childNodes after = childNodes Stub.element
  \/ (exists content, childNodes after = wrapperNode content :: childNodes Stub.element).
Proof.
  apply (changeDemo2_one_wrapper Stub.toFixed Stub.Number_toString Stub.encodeURIComponent
           Stub.parseHTML Stub.computedPosition "TypeError" Stub.cssText Stub.d3
           [0; 1 / 2] Stub.element (childNodes Stub.element)).
  - reflexivity.
  - reflexivity.
  - left. reflexivity.
Defined.

(** The seeds 0 and 2^32 * 999983. *)
Lemma document_seed_residues_witness :
  generateWavelineSvg Stub.toFixed Stub.Number_toString Stub.d3 0
    (withSeed optionsA 0)
  = generateWavelineSvg Stub.toFixed Stub.Number_toString Stub.d3 0
      (withSeed optionsA 4294894281555968).
Proof.
  apply (document_seed_residues Stub.toFixed Stub.Number_toString Stub.d3 0 0 optionsA
           0 4294894281555968); reflexivity.
Defined.

Lemma applyBias_unit_interval_witness :
  0 <= applyBias (1 / 4) (1 / 2) <= 1
  /\ applyBias 0 (1 / 2) = 0
  /\ applyBias 1 (1 / 2) = 1.
Proof. apply (applyBias_unit_interval (1 / 4) (1 / 2)). lra. Defined.

(** A flat field. *)
Lemma thresholds_count_and_flat_witness :
  let levels := thresholds [2; 2] 3 (1 / 2) in
  length levels = Z.to_nat 3
  /\ ((3 <= 0)%Z -> levels = [])
  /\ (Math_min [2; 2] = Math_max [2; 2] -> levels = repeat (Math_min [2; 2]) (Z.to_nat 3)).
Proof. apply (thresholds_count_and_flat [2; 2] 3 (1 / 2)). discriminate. Defined.

(** The second and third of three contours with the default widths and
    opacities. *)
Lemma stroke_style_monotone_witness :
  let sw i := contour_sw 0.16 0.26 (contour_t 3 i) in
  let op i := contour_op 0.5 1 (contour_t 3 i) in
  0.16 <= sw 1%nat <= sw 2%nat
  /\ 0.5 <= op 2%nat <= op 1%nat
  /\ sw 0%nat = 0.16
  /\ ((2 <= 3)%nat -> op (3 - 1)%nat = 0.5).
Proof. apply (stroke_style_monotone 3 1 2 0.16 0.26 0.5 1); [lia|lia|lra|lra]. Defined.

(** The default mode on the stub page. *)
Lemma apply_dataUrl_witness :
  exists svgString,
    generateWavelineSvg Stub.toFixed Stub.Number_toString Stub.d3 0 optionsA
    = Return svgString
    /\ let result := applyWavelineBackground Stub.toFixed Stub.Number_toString
                       Stub.encodeURIComponent Stub.parseHTML Stub.computedPosition
                       "TypeError" Stub.d3 0 Stub.element optionsA None in
       snd result = Return tt
       /\ childNodes (fst result) = childNodes Stub.element
       /\ localName (fst result) = localName Stub.element
       /\ style (fst result)
          = [("backgroundRepeat", "no-repeat");
             ("backgroundPosition", "center");
             ("backgroundSize", "cover");
             ("backgroundImage",
              "url(" ++ dq ++ "data:image/svg+xml;charset=UTF-8,"
              ++ Stub.encodeURIComponent svgString ++ dq ++ ")")]%string
            ++ style Stub.element.
Proof.
  apply (apply_dataUrl Stub.toFixed Stub.Number_toString Stub.encodeURIComponent
           Stub.parseHTML Stub.computedPosition "TypeError" (fun _ _ _ _ => []) 0
           Stub.element optionsA None).
  left. reflexivity.
Defined.
